(** * logic-sim: the circuit evaluation engine of [src/main.rs]

    A shallow embedding of the simulation core of the logic-sim sandbox:
    the gate catalog ([And], [And3], [Or], [Xor], [Not] and their
    [Gate::update] bodies), the per-instance [GateState], the [Simulation]
    record with its [HashMap<usize, GateState>] and its connection [Vec],
    and the operations [add_gate], [add_connection], [get_gate_state],
    [get_gate_name] and [simulate].  The frame loop of [main] that turns
    wall-clock time into a number of ticks is modelled with the kernel's
    primitive binary64 floats.

    Conventions.
    - A panic of the Rust code ([unwrap] on [None], an index out of bounds,
      a failed [try_into]) is [None]; a normal return is [Some].
    - [usize] ids and slot indices are [nat].  The id counter would only
      wrap after 2^64 registrations, which cannot happen in a session, so
      its [+= 1] is the successor.
    - The [HashMap] is a [gmap nat GateState].  Its iteration order in the
      evaluate loop of [simulate] is unspecified in Rust; it is an explicit
      argument [ord] (a list of the keys, in the order the iterator yields
      them).
    - The boxed [update_fn] closure captures the gate value, whose type
      selects the [Gate::update] body; it is represented by the
      [GateKind] of that gate. *)

From stdpp Require Import base gmap list strings.
From Stdlib Require Import Floats FloatOps Uint63 ZArith Lia.

(* ------------------------------------------------------------------ *)
(** ** Gate catalog: [trait Gate<INPUTS, OUTPUTS>] and its five impls *)

Inductive GateKind := And | And3 | Or | Xor | Not.

#[global] Instance GateKind_eq_dec : EqDecision GateKind.
Proof. solve_decision. Defined.

(** [INPUTS] of each impl. *)
Definition input_arity (k : GateKind) : nat :=
  match k with
  | And => 2 | And3 => 3 | Or => 2 | Xor => 2 | Not => 1
  end.

(** [OUTPUTS] of each impl. *)
Definition output_arity (k : GateKind) : nat :=
  match k with
  | And | And3 | Or | Xor | Not => 1
  end.

(** [Gate::NAME] of each impl. *)
Definition gate_name (k : GateKind) : string :=
  match k with
  | And => "AND" | And3 => "AND3" | Or => "OR" | Xor => "XOR" | Not => "NOT"
  end.

(** [Gate::update] on the fixed-size arrays: [outputs[0] = ...]. *)
Definition gate_update_array (k : GateKind) (inputs : list bool) : bool :=
  match k with
  | And => inputs !!! 0 && inputs !!! 1
  | And3 => inputs !!! 0 && inputs !!! 1 && inputs !!! 2
  | Or => inputs !!! 0 || inputs !!! 1
  | Xor => negb (Bool.eqb (inputs !!! 0) (inputs !!! 1))
  | Not => negb (inputs !!! 0)
  end.

(** The boxed closure built in [add_gate]:
    [gate.update(inputs.try_into().unwrap(), outputs.try_into().unwrap())].
    Each [try_into] into [&[bool; N]] panics unless the slice has exactly
    length [N]; then the body writes [outputs[0]]. *)
Definition update_fn (k : GateKind) (inputs outputs : list bool)
  : option (list bool) :=
  if decide (length inputs = input_arity k) then
    if decide (length outputs = output_arity k) then
      Some (<[0 := gate_update_array k inputs]> outputs)
    else None
  else None.

(* ------------------------------------------------------------------ *)
(** ** [GateState] and [Simulation] *)

Record GateState := {
  inputs : list bool;
  outputs : list bool;
  update_kind : GateKind;   (* the gate captured by [update_fn] *)
  name : string;
}.

(** A connection [(from, output, to, input)]. *)
Abbreviation Connection := (nat * nat * nat * nat)%type.

Record Simulation := {
  counter : nat;
  gates : gmap nat GateState;
  connections : list Connection;
}.

(** [GateState::update]: [(self.update_fn)(&self.inputs, &mut self.outputs)]. *)
Definition gate_state_update (g : GateState) : option GateState :=
  match update_fn (update_kind g) (inputs g) (outputs g) with
  | Some outs => Some {| inputs := inputs g; outputs := outs;
                         update_kind := update_kind g; name := name g |}
  | None => None
  end.

(** [Simulation::new]. *)
Definition new_sim : Simulation :=
  {| counter := 0; gates := ∅; connections := [] |}.

(** [Simulation::add_gate]: all-false buffers of the gate's arities, stored
    under [self.counter], which is then incremented. *)
Definition add_gate (s : Simulation) (k : GateKind) : Simulation :=
  {| counter := S (counter s);
     gates := <[counter s := {| inputs := replicate (input_arity k) false;
                                outputs := replicate (output_arity k) false;
                                update_kind := k;
                                name := gate_name k |}]> (gates s);
     connections := connections s |}.

(** [Simulation::add_connection]: [self.connections.push(...)]. *)
Definition add_connection (s : Simulation) (from output to input : nat)
  : Simulation :=
  {| counter := counter s; gates := gates s;
     connections := connections s ++ [(from, output, to, input)] |}.

(** [Simulation::get_gate_state]: [self.gates.get(&id).unwrap()]. *)
Definition get_gate_state (s : Simulation) (id : nat)
  : option (list bool * list bool) :=
  match gates s !! id with
  | Some g => Some (inputs g, outputs g)
  | None => None
  end.

(** [Simulation::get_gate_name]. *)
Definition get_gate_name (s : Simulation) (id : nat) : option string :=
  match gates s !! id with
  | Some g => Some (name g)
  | None => None
  end.

(* ------------------------------------------------------------------ *)
(** ** [Simulation::simulate]: one tick *)

(** [slice[i] = v] on a boxed slice: panics when [i] is out of bounds. *)
Definition set_index (l : list bool) (i : nat) (v : bool) : option (list bool) :=
  if decide (i < length l) then Some (<[i := v]> l) else None.

Definition set_inputs (g : GateState) (ins : list bool) : GateState :=
  {| inputs := ins; outputs := outputs g;
     update_kind := update_kind g; name := name g |}.

(** The first loop of [simulate]:
    [for (from, output, to, input) in &self.connections {
       let output_state = self.gates.get(from).unwrap().outputs[*output];
       self.gates.get_mut(to).unwrap().inputs[*input] = output_state; }] *)
Fixpoint propagate (cs : list Connection) (gs : gmap nat GateState)
  : option (gmap nat GateState) :=
  match cs with
  | [] => Some gs
  | (from, output, to, input) :: cs' =>
      match gs !! from with
      | None => None
      | Some gf =>
          match outputs gf !! output with
          | None => None
          | Some output_state =>
              match gs !! to with
              | None => None
              | Some gt =>
                  match set_index (inputs gt) input output_state with
                  | None => None
                  | Some ins => propagate cs' (<[to := set_inputs gt ins]> gs)
                  end
              end
          end
      end
  end.

(** The second loop of [simulate]: [for (_, state) in &mut self.gates
    { state.update(); }], visiting the keys in the iterator's order [ord]. *)
Fixpoint evaluate (ord : list nat) (gs : gmap nat GateState)
  : option (gmap nat GateState) :=
  match ord with
  | [] => Some gs
  | k :: ord' =>
      match gs !! k with
      | None => None
      | Some g =>
          match gate_state_update g with
          | None => None
          | Some g' => evaluate ord' (<[k := g']> gs)
          end
      end
  end.

(** [Simulation::simulate], with [ord] the iteration order of the map. *)
Definition simulate (ord : list nat) (s : Simulation) : option Simulation :=
  match propagate (connections s) (gates s) with
  | None => None
  | Some gs1 =>
      match evaluate ord gs1 with
      | None => None
      | Some gs2 => Some {| counter := counter s; gates := gs2;
                            connections := connections s |}
      end
  end.

(** An iteration order of the [HashMap] [gs]: every key exactly once. *)
Definition iteration_order (ord : list nat) (gs : gmap nat GateState) : Prop :=
  ord ≡ₚ (map_to_list gs).*1.

(** The order of a concrete run: the one [map_to_list] gives. *)
Definition some_order (s : Simulation) : list nat := (map_to_list (gates s)).*1.

(** [n] ticks in a row, the [i]-th using iteration order [o i]. *)
Fixpoint run_ticks (n : nat) (o : nat -> list nat) (s : Simulation)
  : option Simulation :=
  match n with
  | 0 => Some s
  | S n' =>
      match simulate (o 0) s with
      | None => None
      | Some s' => run_ticks n' (fun i => o (S i)) s'
      end
  end.

(** [n] ticks, each with the order [map_to_list] gives for the state. *)
Fixpoint ticks (n : nat) (s : Simulation) : option Simulation :=
  match n with
  | 0 => Some s
  | S n' =>
      match simulate (some_order s) s with
      | None => None
      | Some s' => ticks n' s'
      end
  end.

(** Buffer reads used to state results. *)
Definition input_at (s : Simulation) (id slot : nat) : option bool :=
  gates s !! id ≫= fun g => inputs g !! slot.
Definition output_at (s : Simulation) (id slot : nat) : option bool :=
  gates s !! id ≫= fun g => outputs g !! slot.

(** Drive a value directly into an input slot (a test harness's poke). *)
Definition drive_input (s : Simulation) (id slot : nat) (v : bool) : Simulation :=
  match gates s !! id with
  | Some g => {| counter := counter s;
                 gates := <[id := set_inputs g (<[slot := v]> (inputs g))]> (gates s);
                 connections := connections s |}
  | None => s
  end.

(* ------------------------------------------------------------------ *)
(** ** Invariants and reachable states *)

(** [gs'] has the keys of [gs], and [R] relates the two gates at each key. *)
Definition frame_rel (R : GateState -> GateState -> Prop)
    (gs gs' : gmap nat GateState) : Prop :=
  forall k, match gs !! k, gs' !! k with
            | Some g, Some g' => R g g'
            | None, None => True
            | _, _ => False
            end.

(** What a tick keeps of a gate: its update function, its name and the
    lengths of its two buffers. *)
Definition same_gate (g g' : GateState) : Prop :=
  update_kind g' = update_kind g /\ name g' = name g /\
  length (inputs g') = length (inputs g) /\
  length (outputs g') = length (outputs g).

(** What the propagate loop keeps of a gate: the above and its outputs. *)
Definition same_outputs (g g' : GateState) : Prop :=
  same_gate g g' /\ outputs g' = outputs g.

(** What the evaluate loop keeps of a gate: the above and its inputs. *)
Definition same_inputs (g g' : GateState) : Prop :=
  same_gate g g' /\ inputs g' = inputs g.

(** A wire whose endpoints exist and whose slots are in range of the
    buffers: the check [add_connection] would need so that [simulate]
    neither unwraps [None] nor indexes out of bounds. *)
Definition valid_connection (gs : gmap nat GateState) (c : Connection) : Prop :=
  match c with
  | (from, output, to, input) =>
      (exists gf, gs !! from = Some gf /\ output < length (outputs gf)) /\
      (exists gt, gs !! to = Some gt /\ input < length (inputs gt))
  end.

(** [valid_connection] as a boolean check. *)
Definition valid_connectionb (gs : gmap nat GateState) (c : Connection) : bool :=
  match c with
  | (from, output, to, input) =>
      match gs !! from, gs !! to with
      | Some gf, Some gt =>
          bool_decide (output < length (outputs gf)) &&
          bool_decide (input < length (inputs gt))
      | _, _ => false
      end
  end.

(** Every wire of the table is valid. *)
Definition wires_valid (s : Simulation) : Prop :=
  Forall (valid_connection (gates s)) (connections s).

(** The value in input slot [input] of gate [to] of a map. *)
Definition input_of (gs : gmap nat GateState) (to input : nat) : option bool :=
  gs !! to ≫= fun g => inputs g !! input.

(** Every gate's buffers have the lengths its kind declares. *)
Definition buffers_wf (gs : gmap nat GateState) : Prop :=
  forall k g, gs !! k = Some g ->
    length (inputs g) = input_arity (update_kind g) /\
    length (outputs g) = output_arity (update_kind g).

(** Every registered id is below the counter. *)
Definition ids_below (s : Simulation) : Prop :=
  forall k, is_Some (gates s !! k) -> k < counter s.

(** The operations of the public surface, as a step relation. *)
Inductive step : Simulation -> Simulation -> Prop :=
| step_add_gate s k : step s (add_gate s k)
| step_add_connection s from output to input :
    step s (add_connection s from output to input)
| step_simulate s ord s' :
    iteration_order ord (gates s) -> simulate ord s = Some s' -> step s s'.

Definition reachable (s : Simulation) : Prop := rtc step new_sim s.

(** A run of the public operations, recording the id each [add_gate]
    stores its gate under ([self.counter] at the time of the call). *)
Inductive trace : Simulation -> list nat -> Simulation -> Prop :=
| trace_nil s : trace s [] s
| trace_add_gate s k ids s' :
    trace (add_gate s k) ids s' -> trace s (counter s :: ids) s'
| trace_add_connection s from output to input ids s' :
    trace (add_connection s from output to input) ids s' -> trace s ids s'
| trace_simulate s ord s1 ids s' :
    iteration_order ord (gates s) -> simulate ord s = Some s1 ->
    trace s1 ids s' -> trace s ids s'.

(** The same operations when [add_connection] is only called with a wire
    that passes [valid_connection]. *)
Inductive checked_step : Simulation -> Simulation -> Prop :=
| cstep_add_gate s k : checked_step s (add_gate s k)
| cstep_add_connection s from output to input :
    valid_connection (gates s) (from, output, to, input) ->
    checked_step s (add_connection s from output to input)
| cstep_simulate s ord s' :
    iteration_order ord (gates s) -> simulate ord s = Some s' ->
    checked_step s s'.

Definition checked_reachable (s : Simulation) : Prop := rtc checked_step new_sim s.

(* ------------------------------------------------------------------ *)
(** ** Concrete circuits *)

(** A NOT gate whose output 0 is wired back to its input 0. *)
Definition not_loop : Simulation :=
  add_connection (add_gate new_sim Not) 0 0 0 0.

(** The NOT loop after an odd number of ticks: input false, output true. *)
Definition not_loop_odd : Simulation :=
  {| counter := 1;
     gates := <[0 := {| inputs := [false]; outputs := [true];
                        update_kind := Not; name := "NOT" |}]> ∅;
     connections := [(0, 0, 0, 0)] |}.

(** The NOT loop after a positive even number of ticks: input true,
    output false. *)
Definition not_loop_even : Simulation :=
  {| counter := 1;
     gates := <[0 := {| inputs := [true]; outputs := [false];
                        update_kind := Not; name := "NOT" |}]> ∅;
     connections := [(0, 0, 0, 0)] |}.

(** Three NOT gates in series, 0 -> 1 -> 2. *)
Definition not_chain : Simulation :=
  add_connection
    (add_connection (add_gate (add_gate (add_gate new_sim Not) Not) Not) 0 0 1 0)
    1 0 2 0.

(** The chain run until it is settled, with the input of gate 0 held at [b]. *)
Definition settled_chain (b : bool) : option Simulation :=
  ticks 3 (drive_input not_chain 0 0 b).

(* ------------------------------------------------------------------ *)
(** ** The frame loop of [main]: wall-clock time to ticks

    [let period = (1.0 / frequency) as f64;
     let elapsed = get_time() - last_update;
     let iterations = (elapsed / period) + elapsed_remainder;
     if iterations >= 1.0 {
         last_update = get_time();
         elapsed_remainder = iterations.fract();
         let iterations = iterations.trunc() as usize;
         for _ in 0..iterations { sim.simulate(); } }]

    [f64] is the kernel's binary64 [float].  [frequency] is an [f32]; its
    value is held exactly in a [float], and the [f32] division [1.0 /
    frequency] is the binary64 quotient rounded to 24 bits (rounding twice
    gives the correctly rounded binary32 quotient, since 53 >= 2*24 + 2). *)

Local Open Scope float_scope.

(** Rounding of a binary64 value to the nearest binary32 value (ties to
    even), for values in the normal binary32 range. *)
Definition round_f32 (x : float) : float :=
  let (m, e) := FloatOps.Z.frexp (abs x) in
  let mant := to_Z (normfr_mantissa m) in        (* |x| = mant * 2^(e-53) *)
  let q := Z.shiftr mant 29 in
  let r := Z.land mant (2 ^ 29 - 1) in
  let q' := if (2 ^ 28 <? r)%Z || ((r =? 2 ^ 28)%Z && Z.odd q) then (q + 1)%Z else q in
  let y := FloatOps.Z.ldexp (of_uint63 (of_Z q')) (e - 24) in
  if get_sign x then - y else y.

(** The integer part of a non-negative finite [x], as a [Z]. *)
Definition trunc_Z (x : float) : Z :=
  let (m, e) := FloatOps.Z.frexp (abs x) in
  let mant := to_Z (normfr_mantissa m) in        (* |x| = mant * 2^(e-53) *)
  if (e <=? 0)%Z then 0%Z
  else if (e <=? 53)%Z then Z.shiftr mant (53 - e)
  else Z.shiftl mant (e - 53).

(** [f64::trunc]: rounding toward zero. *)
Definition trunc (x : float) : float :=
  let (_, e) := FloatOps.Z.frexp (abs x) in
  if (53 <=? e)%Z then x
  else
    let t := of_uint63 (of_Z (trunc_Z x)) in
    if get_sign x then - t else t.

(** [f64::fract]: [self - self.trunc()]. *)
Definition fract (x : float) : float := x - trunc x.

(** [as usize] on a non-negative float: saturates at [usize::MAX]. *)
Definition to_usize (x : float) : nat :=
  Z.to_nat (Z.min (trunc_Z x) (2 ^ 64 - 1)).

Record Clock := {
  last_update : float;
  elapsed_remainder : float;
}.

(** One pass of the loop's timing code.  [now] is the first [get_time()]
    (the one [elapsed] uses), [now'] the second one (stored into
    [last_update]).  Returns the number of [simulate] calls and the new
    clock. *)
Definition frame (frequency now now' : float) (c : Clock) : nat * Clock :=
  let period := round_f32 (1 / frequency) in
  let elapsed := now - last_update c in
  let iterations := elapsed / period + elapsed_remainder c in
  if 1 <=? iterations then
    (to_usize (trunc iterations),
     {| last_update := now'; elapsed_remainder := fract iterations |})
  else (0%nat, c).

(** The frame, with its ticks run on the simulation. *)
Definition main_frame (frequency now now' : float) (c : Clock) (s : Simulation)
  : Clock * option Simulation :=
  let (n, c') := frame frequency now now' c in (c', ticks n s).

Local Close Scope float_scope.

(* ------------------------------------------------------------------ *)
(** ** One wire of the propagate loop *)

(** The write [self.gates.get_mut(to).unwrap().inputs[*input] = v], once
    [to] and [input] are known to be valid. *)
Definition write_input (to input : nat) (v : bool) (gs : gmap nat GateState)
  : gmap nat GateState :=
  alter (fun g => set_inputs g (<[input := v]> (inputs g))) to gs.

(** The read [self.gates.get(from).unwrap().outputs[*output]], once
    [from] and [output] are known to be valid. *)
Definition read_output (from output : nat) (gs : gmap nat GateState) : bool :=
  match gs !! from with Some g => outputs g !!! output | None => false end.

(** The slot a wire writes. *)
Definition dest (c : Connection) : nat * nat := (c.1.2, c.2).

(* ------------------------------------------------------------------ *)
(** ** [draw_gate]: which part of a gate the mouse is over

    The drawing calls have no effect on the simulation and are left out;
    so are the [Vec2] positions carried by [GateMouseHover].  What remains
    is how [draw_gate] picks its result: [in_hit i] ([out_hit i]) is the
    [is_point_inside_box] test of the mouse against the box of input
    (output) slot [i], and [box_hit] the test against the gate body. *)

Inductive GateMouseHover := HoverInput (index : nat) | HoverOutput (index : nat) | HoverGate.

(** [for (index, state) in slots.iter().enumerate() { ... if hit
    { mouse_hover = Some(mk(index)) } }], from [index] on. *)
Fixpoint scan_slots (hit : nat -> bool) (mk : nat -> GateMouseHover)
    (index : nat) (slots : list bool) (mouse_hover : option GateMouseHover)
  : option GateMouseHover :=
  match slots with
  | [] => mouse_hover
  | _ :: slots' =>
      scan_slots hit mk (S index) slots'
        (if hit index then Some (mk index) else mouse_hover)
  end.

(** The result of [draw_gate]: the input loop, then the output loop, then
    [if mouse_hover.is_some() { mouse_hover } else if <inside the body>
    { Some(Gate(..)) } else { None }]. *)
Definition draw_gate_hover (in_hit out_hit : nat -> bool) (box_hit : bool)
    (inputs outputs : list bool) : option GateMouseHover :=
  let mouse_hover := scan_slots in_hit HoverInput 0 inputs None in
  let mouse_hover := scan_slots out_hit HoverOutput 0 outputs mouse_hover in
  match mouse_hover with
  | Some _ => mouse_hover
  | None => if box_hit then Some HoverGate else None
  end.

(** The highest index below [n] that [hit] accepts. *)
Fixpoint last_hit (hit : nat -> bool) (n : nat) : option nat :=
  match n with
  | 0 => None
  | S n' => if hit n' then Some n' else last_hit hit n'
  end.

(* ------------------------------------------------------------------ *)
(** ** The [main] loop's use of the simulation *)

(** The simulation as [main] sets it up. *)
Definition main_sim : Simulation :=
  add_gate (add_gate (add_gate (add_gate (add_gate new_sim And) Or) Not) Xor) And3.

(** The keys of [board_gates]. *)
Definition board_ids : list nat := [0; 1; 2; 3; 4].

(** The loop state that reaches the simulation ([dragging], the positions
    and the clock do not). *)
Record Ui := {
  sim : Simulation;
  selected_input : option (nat * nat);
  selected_output : option (nat * nat);
}.

Definition ui_init : Ui :=
  {| sim := main_sim; selected_input := None; selected_output := None |}.

(** [if let (Some((input_gate_id, input_id, _)), Some((output_gate_id,
    output_id, _))) = (selected_input, selected_output) {
    sim.add_connection(output_gate_id, output_id, input_gate_id, input_id);
    selected_input = None; selected_output = None; }] *)
Definition ui_connect (u : Ui) : Ui :=
  match selected_input u, selected_output u with
  | Some (input_gate_id, input_id), Some (output_gate_id, output_id) =>
      {| sim := add_connection (sim u) output_gate_id output_id input_gate_id input_id;
         selected_input := None; selected_output := None |}
  | _, _ => u
  end.

(** One iteration of [for (&id, ..) in &mut board_gates]: read the gate's
    state and name (each [unwrap] may panic), draw it, and on a press over
    an input or output slot select it. *)
Definition ui_hover (in_hit out_hit : nat -> bool) (box_hit pressed : bool)
    (id : nat) (u : Ui) : option Ui :=
  match get_gate_state (sim u) id, get_gate_name (sim u) id with
  | Some (ins, outs), Some _ =>
      match draw_gate_hover in_hit out_hit box_hit ins outs with
      | Some (HoverInput input_id) =>
          Some (if pressed
                then {| sim := sim u; selected_input := Some (id, input_id);
                        selected_output := selected_output u |}
                else u)
      | Some (HoverOutput output_id) =>
          Some (if pressed
                then {| sim := sim u; selected_input := selected_input u;
                        selected_output := Some (id, output_id) |}
                else u)
      | _ => Some u
      end
  | _, _ => None
  end.

(** The loop's actions on the simulation, in any order: the wiring step,
    one [sim.simulate()], or one gate of the drawing loop. *)
Inductive ui_step : Ui -> Ui -> Prop :=
| ui_step_connect u : ui_step u (ui_connect u)
| ui_step_simulate u ord s' :
    iteration_order ord (gates (sim u)) -> simulate ord (sim u) = Some s' ->
    ui_step u {| sim := s'; selected_input := selected_input u;
                 selected_output := selected_output u |}
| ui_step_hover u id in_hit out_hit box_hit pressed u' :
    id ∈ board_ids -> ui_hover in_hit out_hit box_hit pressed id u = Some u' ->
    ui_step u u'.

Definition ui_reachable (u : Ui) : Prop := rtc ui_step ui_init u.

(** After a tick, a gate's output is its kind's rule on its inputs. *)
Definition settled_gate (g : GateState) : Prop :=
  length (inputs g) = input_arity (update_kind g) /\
  outputs g = [gate_update_array (update_kind g) (inputs g)].

(* ------------------------------------------------------------------ *)
(** ** Invariants and sample states used below *)

(** No input slot that no wire drives holds [true]. *)
Definition undriven_false (s : Simulation) : Prop :=
  forall id slot, Forall (fun c => dest c <> (id, slot)) (connections s) ->
    input_of (gates s) id slot <> Some true.

(** Every gate of [gs] is in [gs'], with the same kind, name and buffer
    lengths. *)
Definition gates_kept (gs gs' : gmap nat GateState) : Prop :=
  forall id g, gs !! id = Some g -> exists g', gs' !! id = Some g' /\ same_gate g g'.

(** A selected input (output) slot exists in the simulation. *)
Definition selection_valid (u : Ui) : Prop :=
  (forall ig ii, selected_input u = Some (ig, ii) ->
     exists g, gates (sim u) !! ig = Some g /\ ii < length (inputs g)) /\
  (forall og oi, selected_output u = Some (og, oi) ->
     exists g, gates (sim u) !! og = Some g /\ oi < length (outputs g)).

(** What the [main] loop keeps: well-formed buffers, ids below the counter,
    valid wires, the [board_gates] ids registered, valid selections. *)
Definition ui_invariant (u : Ui) : Prop :=
  buffers_wf (gates (sim u)) /\ ids_below (sim u) /\ wires_valid (sim u) /\
  (forall id, id ∈ board_ids -> is_Some (gates (sim u) !! id)) /\
  selection_valid u.

(** The [main] circuit with the outputs of the AND and OR gates both wired
    to input 0 of the NOT gate, and the state after one tick. *)
Definition fan_in_sim : Simulation :=
  add_connection (add_connection main_sim 0 0 2 0) 1 0 2 0.

Definition fan_in_next : Simulation :=
  match simulate (some_order fan_in_sim) fan_in_sim with
  | Some s' => s'
  | None => new_sim
  end.

(** The state after one tick of [not_loop] and of [main_sim]. *)
Definition not_loop_next : Simulation :=
  match simulate (some_order not_loop) not_loop with
  | Some s' => s'
  | None => new_sim
  end.

Definition main_next : Simulation :=
  match simulate (some_order main_sim) main_sim with
  | Some s' => s'
  | None => new_sim
  end.

(** The [main] loop after a press on input 0 of the NOT gate (id 2), a
    press on output 0 of the AND gate (id 0), the wiring step that adds
    the wire between them, and a press on output 0 of the OR gate (id 1). *)
Definition slot0 (i : nat) : bool := Nat.eqb i 0.

Definition ui_sel_in : Ui :=
  {| sim := main_sim; selected_input := Some (2, 0); selected_output := None |}.

Definition ui_sel_both : Ui :=
  {| sim := main_sim; selected_input := Some (2, 0); selected_output := Some (0, 0) |}.

Definition ui_wired : Ui :=
  {| sim := add_connection main_sim 0 0 2 0; selected_input := None;
     selected_output := None |}.

Definition ui_wired_sel : Ui :=
  {| sim := add_connection main_sim 0 0 2 0; selected_input := None;
     selected_output := Some (1, 0) |}.

(* ================================================================== *)
(** * Properties *)

(* ------------------------------------------------------------------ *)
(** ** Frame lemmas for the two loops of [simulate] *)

Lemma frame_rel_refl R gs : (forall g, R g g) -> frame_rel R gs gs.
Proof. intros HR k. destruct (gs !! k); auto. Qed.

Lemma frame_rel_trans R gs1 gs2 gs3 :
  (forall a b c, R a b -> R b c -> R a c) ->
  frame_rel R gs1 gs2 -> frame_rel R gs2 gs3 -> frame_rel R gs1 gs3.
Proof.
  intros HT H12 H23 k. specialize (H12 k). specialize (H23 k).
  destruct (gs1 !! k), (gs2 !! k), (gs3 !! k); eauto; contradiction.
Qed.

Lemma frame_rel_insert R gs k g g' :
  (forall g0, R g0 g0) -> gs !! k = Some g -> R g g' ->
  frame_rel R gs (<[k := g']> gs).
Proof.
  intros Hr Hk HR j. destruct (decide (k = j)) as [<-|Hne].
  - rewrite Hk, lookup_insert_eq. exact HR.
  - rewrite lookup_insert_ne by done. destruct (gs !! j); auto.
Qed.

Lemma frame_rel_weaken (R R' : GateState -> GateState -> Prop) gs gs' :
  (forall a b, R a b -> R' a b) -> frame_rel R gs gs' -> frame_rel R' gs gs'.
Proof.
  intros HW H k. specialize (H k). destruct (gs !! k), (gs' !! k); auto.
Qed.

Lemma frame_rel_is_Some R gs gs' k :
  frame_rel R gs gs' -> is_Some (gs !! k) <-> is_Some (gs' !! k).
Proof.
  intros H. specialize (H k).
  destruct (gs !! k), (gs' !! k); split; intros [? ?]; done || contradiction.
Qed.

Lemma same_gate_refl g : same_gate g g.
Proof. repeat split. Qed.

Lemma same_gate_trans a b c : same_gate a b -> same_gate b c -> same_gate a c.
Proof. unfold same_gate. intuition congruence. Qed.

Lemma same_outputs_refl g : same_outputs g g.
Proof. split; [apply same_gate_refl | done]. Qed.

Lemma same_outputs_trans a b c :
  same_outputs a b -> same_outputs b c -> same_outputs a c.
Proof.
  intros [? ?] [? ?]. split; [eapply same_gate_trans; eauto | congruence].
Qed.

Lemma same_inputs_refl g : same_inputs g g.
Proof. split; [apply same_gate_refl | done]. Qed.

Lemma same_inputs_trans a b c :
  same_inputs a b -> same_inputs b c -> same_inputs a c.
Proof.
  intros [? ?] [? ?]. split; [eapply same_gate_trans; eauto | congruence].
Qed.

Create HintDb frame.
#[local] Hint Resolve same_gate_refl same_outputs_refl same_inputs_refl
  same_gate_trans same_outputs_trans same_inputs_trans : frame.

Lemma set_index_Some l i v l' :
  set_index l i v = Some l' -> l' = <[i := v]> l /\ i < length l.
Proof. unfold set_index. case_decide; intros; simplify_eq; auto. Qed.

(** The propagate loop changes inputs only. *)
Lemma propagate_frame cs gs gs' :
  propagate cs gs = Some gs' -> frame_rel same_outputs gs gs'.
Proof.
  revert gs. induction cs as [|[[[from output] to] input] cs IH]; intros gs H.
  - simpl in H. simplify_eq. apply frame_rel_refl; auto with frame.
  - simpl in H.
    destruct (gs !! from) as [gf|] eqn:Hf; [|done].
    destruct (outputs gf !! output) as [v|]; [|done].
    destruct (gs !! to) as [gt|] eqn:Ht; [|done].
    destruct (set_index (inputs gt) input v) as [ins|] eqn:Hs; [|done].
    apply set_index_Some in Hs as [-> _].
    eapply frame_rel_trans; [exact same_outputs_trans | | exact (IH _ H)].
    eapply frame_rel_insert; [exact same_outputs_refl | exact Ht |].
    repeat split; simpl. apply length_insert.
Qed.

Lemma update_fn_length k ins outs outs' :
  update_fn k ins outs = Some outs' -> length outs' = length outs.
Proof.
  unfold update_fn. repeat case_decide; intros; simplify_eq.
  apply length_insert.
Qed.

(** The evaluate loop changes outputs only. *)
Lemma evaluate_frame ord gs gs' :
  evaluate ord gs = Some gs' -> frame_rel same_inputs gs gs'.
Proof.
  revert gs. induction ord as [|k ord IH]; intros gs H.
  - simpl in H. simplify_eq. apply frame_rel_refl; auto with frame.
  - simpl in H.
    destruct (gs !! k) as [g|] eqn:Hk; [|done].
    destruct (gate_state_update g) as [g'|] eqn:Hu; [|done].
    eapply frame_rel_trans; [exact same_inputs_trans | | exact (IH _ H)].
    eapply frame_rel_insert; [exact same_inputs_refl | exact Hk |].
    unfold gate_state_update in Hu.
    destruct (update_fn _ _ _) as [outs|] eqn:Hf; simplify_eq.
    repeat split; simpl. eapply update_fn_length; eauto.
Qed.

Lemma simulate_frame ord s s' :
  simulate ord s = Some s' ->
  counter s' = counter s /\ connections s' = connections s /\
  frame_rel same_gate (gates s) (gates s').
Proof.
  unfold simulate.
  destruct (propagate _ _) as [gs1|] eqn:Hp; [|done].
  destruct (evaluate _ _) as [gs2|] eqn:He; [|done].
  intros [= <-]. simpl. split; [done | split; [done |]].
  eapply frame_rel_trans; [exact same_gate_trans | |].
  - eapply frame_rel_weaken, propagate_frame, Hp. intros ? ? []; done.
  - eapply frame_rel_weaken, evaluate_frame, He. intros ? ? []; done.
Qed.

(* ------------------------------------------------------------------ *)
(** ** The propagate loop: sequencing and last write *)

Lemma propagate_app cs1 cs2 gs :
  propagate (cs1 ++ cs2) gs =
  match propagate cs1 gs with Some gs1 => propagate cs2 gs1 | None => None end.
Proof.
  revert gs. induction cs1 as [|[[[from output] to] input] cs1 IH]; intros gs.
  - done.
  - simpl. destruct (gs !! from); [|done].
    destruct (outputs _ !! output); [|done].
    destruct (gs !! to); [|done].
    destruct (set_index _ _ _); [|done]. apply IH.
Qed.

(** A wire that does not target slot [(to, input)] leaves it alone. *)
Lemma propagate_untouched cs gs gs' to input :
  propagate cs gs = Some gs' ->
  Forall (fun c : Connection => (c.1.2, c.2) <> (to, input)) cs ->
  input_of gs' to input = input_of gs to input.
Proof.
  revert gs. induction cs as [|[[[f o] t] i] cs IH]; intros gs H Hall.
  - simpl in H. by simplify_eq.
  - inversion Hall as [|? ? Hc Hrest]; subst. simpl in H, Hc.
    destruct (gs !! f) as [gf|]; [|done].
    destruct (outputs gf !! o) as [v|]; [|done].
    destruct (gs !! t) as [gt|] eqn:Ht; [|done].
    destruct (set_index (inputs gt) i v) as [ins|] eqn:Hs; [|done].
    apply set_index_Some in Hs as [-> _].
    rewrite (IH _ H Hrest). unfold input_of.
    destruct (decide (t = to)) as [<-|Hne].
    + rewrite lookup_insert_eq, Ht. simpl.
      apply list_lookup_insert_ne. congruence.
    + by rewrite lookup_insert_ne.
Qed.

(** The wire [(from, output, to, input)] placed after [pre] and before
    [post], where no wire of [post] targets [(to, input)], leaves in that
    slot the pre-tick value of output [output] of gate [from]. *)
Lemma propagate_last_write pre post from output to input gs gs' :
  propagate (pre ++ [(from, output, to, input)] ++ post) gs = Some gs' ->
  Forall (fun c : Connection => (c.1.2, c.2) <> (to, input)) post ->
  exists gf v, gs !! from = Some gf /\ outputs gf !! output = Some v /\
               input_of gs' to input = Some v.
Proof.
  intros H Hpost. rewrite propagate_app in H.
  destruct (propagate pre gs) as [gs1|] eqn:Hpre; [|done].
  pose proof (propagate_frame _ _ _ Hpre from) as Hfr.
  simpl in H.
  destruct (gs1 !! from) as [gf1|] eqn:Hf1; [|done].
  destruct (gs !! from) as [gf|]; [|done].
  destruct Hfr as [_ Hout].
  destruct (outputs gf1 !! output) as [v|] eqn:Hv; [|done].
  destruct (gs1 !! to) as [gt|] eqn:Ht; [|done].
  destruct (set_index (inputs gt) input v) as [ins|] eqn:Hs; [|done].
  apply set_index_Some in Hs as [-> Hlt].
  exists gf, v. split; [done|]. split; [congruence|].
  rewrite (propagate_untouched _ _ _ _ _ H Hpost).
  unfold input_of. rewrite lookup_insert_eq. simpl.
  by apply list_lookup_insert_eq.
Qed.

(* ------------------------------------------------------------------ *)
(** ** The evaluate loop does not depend on the iteration order *)

Lemma evaluate_swap k1 k2 ord gs :
  evaluate (k1 :: k2 :: ord) gs = evaluate (k2 :: k1 :: ord) gs.
Proof.
  destruct (decide (k1 = k2)) as [<-|Hne]; [done|]. simpl.
  destruct (gs !! k1) as [g1|] eqn:H1, (gs !! k2) as [g2|] eqn:H2; try done.
  - destruct (gate_state_update g1) as [g1'|] eqn:U1,
      (gate_state_update g2) as [g2'|] eqn:U2;
      rewrite ?lookup_insert_ne, ?H1, ?H2, ?U1, ?U2 by congruence; try done.
    by rewrite insert_insert_ne.
  - destruct (gate_state_update g1); [|done].
    by rewrite lookup_insert_ne, H2.
  - destruct (gate_state_update g2); [|done].
    rewrite lookup_insert_ne by congruence. by rewrite H1.
Qed.

Lemma evaluate_perm ord1 ord2 gs :
  ord1 ≡ₚ ord2 -> evaluate ord1 gs = evaluate ord2 gs.
Proof.
  intros Hp. revert gs. induction Hp as [|k l1 l2 _ IH|k1 k2 l|l1 l2 l3 _ IH1 _ IH2];
    intros gs.
  - done.
  - simpl. destruct (gs !! k); [|done].
    destruct (gate_state_update _); [|done]. apply IH.
  - symmetry. apply evaluate_swap.
  - by rewrite IH1, IH2.
Qed.

Lemma simulate_perm ord1 ord2 s :
  ord1 ≡ₚ ord2 -> simulate ord1 s = simulate ord2 s.
Proof.
  intros Hp. unfold simulate. destruct (propagate _ _); [|done].
  by rewrite (evaluate_perm _ _ _ Hp).
Qed.

(* ------------------------------------------------------------------ *)
(** ** Invariants of the public operations *)

Lemma iteration_order_keys ord gs k :
  iteration_order ord gs -> k ∈ ord -> is_Some (gs !! k).
Proof.
  unfold iteration_order. intros Hp Hk. rewrite Hp in Hk.
  apply list_elem_of_fmap in Hk as [[k' g] [-> Hin]].
  apply elem_of_map_to_list in Hin. simpl. by eexists.
Qed.

Lemma buffers_wf_frame gs gs' :
  frame_rel same_gate gs gs' -> buffers_wf gs -> buffers_wf gs'.
Proof.
  intros Hf Hwf k g' Hk'. specialize (Hf k). rewrite Hk' in Hf.
  destruct (gs !! k) as [g|] eqn:Hk; [|done].
  destruct Hf as (Hkind & _ & Hin & Hout).
  destruct (Hwf _ _ Hk). rewrite Hkind, Hin, Hout. done.
Qed.

Lemma valid_connection_frame gs gs' c :
  frame_rel same_gate gs gs' -> valid_connection gs c -> valid_connection gs' c.
Proof.
  destruct c as [[[from output] to] input]. simpl.
  intros Hf [[gf [Hgf Ho]] [gt [Hgt Hi]]]. split.
  - pose proof (Hf from) as H. rewrite Hgf in H.
    destruct (gs' !! from) as [gf'|]; [|done]. destruct H as (_ & _ & _ & Hl).
    exists gf'. split; [done | lia].
  - pose proof (Hf to) as H. rewrite Hgt in H.
    destruct (gs' !! to) as [gt'|]; [|done]. destruct H as (_ & _ & Hl & _).
    exists gt'. split; [done | lia].
Qed.

Lemma add_gate_buffers_wf s k : buffers_wf (gates s) -> buffers_wf (gates (add_gate s k)).
Proof.
  intros Hwf j g. simpl. destruct (decide (counter s = j)) as [<-|Hne].
  - rewrite lookup_insert_eq. intros [= <-]. simpl.
    by rewrite !length_replicate.
  - rewrite lookup_insert_ne by done. apply Hwf.
Qed.

Lemma add_gate_ids_below s k : ids_below s -> ids_below (add_gate s k).
Proof.
  intros Hb j. simpl. destruct (decide (counter s = j)) as [<-|Hne].
  - lia.
  - rewrite lookup_insert_ne by done. intros H. specialize (Hb _ H). lia.
Qed.

Lemma fresh_id s : ids_below s -> gates s !! counter s = None.
Proof.
  intros Hb. destruct (gates s !! counter s) eqn:H; [|done].
  assert (is_Some (gates s !! counter s)) as Hs by (rewrite H; by eexists).
  specialize (Hb _ Hs). lia.
Qed.

Lemma add_gate_valid_connection s k c :
  ids_below s -> valid_connection (gates s) c ->
  valid_connection (gates (add_gate s k)) c.
Proof.
  intros Hb. destruct c as [[[from output] to] input]. simpl.
  pose proof (fresh_id s Hb) as Hfresh.
  intros [[gf [Hgf Ho]] [gt [Hgt Hi]]]. split.
  - exists gf. rewrite lookup_insert_ne by congruence. done.
  - exists gt. rewrite lookup_insert_ne by congruence. done.
Qed.

Lemma simulate_ids_below ord s s' :
  simulate ord s = Some s' -> ids_below s -> ids_below s'.
Proof.
  intros Hs Hb k Hk. destruct (simulate_frame _ _ _ Hs) as (Hc & _ & Hf).
  rewrite Hc. apply Hb. eapply frame_rel_is_Some; eauto.
Qed.

(** Buffer lengths and ids below the counter hold in every reachable state. *)
Lemma step_invariant s s' :
  step s s' -> buffers_wf (gates s) /\ ids_below s ->
  buffers_wf (gates s') /\ ids_below s'.
Proof.
  intros Hst [Hwf Hb]. destruct Hst as [s k|s f o t i|s ord s' _ Hs].
  - split; [by apply add_gate_buffers_wf | by apply add_gate_ids_below].
  - split; done.
  - destruct (simulate_frame _ _ _ Hs) as (_ & _ & Hf). split.
    + by eapply buffers_wf_frame.
    + by eapply simulate_ids_below.
Qed.

Lemma steps_invariant s s' :
  rtc step s s' -> buffers_wf (gates s) /\ ids_below s ->
  buffers_wf (gates s') /\ ids_below s'.
Proof.
  induction 1 as [|x y z Hxy _ IH]; [done|]. intros H. apply IH.
  by eapply step_invariant.
Qed.

Lemma reachable_invariant s :
  reachable s -> buffers_wf (gates s) /\ ids_below s.
Proof.
  intros H. eapply steps_invariant; [exact H|]. split.
  - intros k g. simpl. by rewrite lookup_empty.
  - intros k. simpl. rewrite lookup_empty. by intros [? ?].
Qed.

Lemma step_counter_mono s s' : step s s' -> counter s <= counter s'.
Proof.
  destruct 1 as [s k|s f o t i|s ord s' _ Hs]; simpl; [lia | lia |].
  destruct (simulate_frame _ _ _ Hs) as (-> & _). lia.
Qed.

Lemma steps_counter_mono s s' : rtc step s s' -> counter s <= counter s'.
Proof.
  induction 1 as [|x y z Hxy _ IH]; [lia|].
  pose proof (step_counter_mono _ _ Hxy). lia.
Qed.

(* ------------------------------------------------------------------ *)
(** ** A tick cannot panic once every wire is valid *)

Lemma propagate_total cs gs :
  Forall (valid_connection gs) cs -> exists gs', propagate cs gs = Some gs'.
Proof.
  revert gs. induction cs as [|[[[from output] to] input] cs IH]; intros gs Hall.
  - by eexists.
  - inversion Hall as [|? ? Hc Hrest]; subst.
    destruct Hc as [[gf [Hgf Ho]] [gt [Hgt Hi]]].
    simpl. rewrite Hgf.
    destruct (lookup_lt_is_Some_2 (outputs gf) output Ho) as [v Hv]. rewrite Hv.
    rewrite Hgt. unfold set_index. rewrite decide_True by done.
    apply IH. eapply Forall_impl; [exact Hrest|]. intros c Hc.
    eapply valid_connection_frame; [|exact Hc].
    apply (frame_rel_weaken same_outputs); [intros ? ? []; done|].
    eapply frame_rel_insert; [exact same_outputs_refl | exact Hgt |].
    repeat split; simpl. apply length_insert.
Qed.

Lemma gate_state_update_wf g :
  length (inputs g) = input_arity (update_kind g) ->
  length (outputs g) = output_arity (update_kind g) ->
  exists g', gate_state_update g = Some g' /\ same_inputs g g'.
Proof.
  intros Hi Ho. unfold gate_state_update, update_fn.
  rewrite decide_True by done. rewrite decide_True by done.
  eexists. split; [done|]. repeat split; simpl. apply length_insert.
Qed.

Lemma evaluate_total ord gs :
  (forall k, k ∈ ord -> is_Some (gs !! k)) -> buffers_wf gs ->
  exists gs', evaluate ord gs = Some gs'.
Proof.
  revert gs. induction ord as [|k ord IH]; intros gs Hkeys Hwf.
  - by eexists.
  - destruct (Hkeys k ltac:(set_solver)) as [g Hg].
    destruct (Hwf _ _ Hg) as [Hi Ho].
    destruct (gate_state_update_wf g Hi Ho) as [g' [Hu Hsame]].
    simpl. rewrite Hg, Hu.
    assert (frame_rel same_inputs gs (<[k := g']> gs)) as Hf
      by (eapply frame_rel_insert; [exact same_inputs_refl | exact Hg | exact Hsame]).
    apply IH.
    + intros j Hj. apply (frame_rel_is_Some _ _ _ j Hf). apply Hkeys. set_solver.
    + eapply buffers_wf_frame; [|exact Hwf].
      apply (frame_rel_weaken same_inputs); [intros ? ? []; done | exact Hf].
Qed.

Lemma simulate_total ord s :
  buffers_wf (gates s) -> wires_valid s -> iteration_order ord (gates s) ->
  exists s', simulate ord s = Some s'.
Proof.
  intros Hwf Hv Ho. unfold simulate.
  destruct (propagate_total _ _ Hv) as [gs1 Hp]. rewrite Hp.
  pose proof (propagate_frame _ _ _ Hp) as Hf.
  assert (frame_rel same_gate (gates s) gs1) as Hf'
    by (apply (frame_rel_weaken same_outputs); [intros ? ? []; done | exact Hf]).
  destruct (evaluate_total ord gs1) as [gs2 He].
  - intros k Hk. apply (frame_rel_is_Some _ _ _ k Hf).
    eapply iteration_order_keys; eauto.
  - by eapply buffers_wf_frame.
  - rewrite He. by eexists.
Qed.

Lemma checked_step_invariant s s' :
  checked_step s s' ->
  buffers_wf (gates s) /\ ids_below s /\ wires_valid s ->
  buffers_wf (gates s') /\ ids_below s' /\ wires_valid s'.
Proof.
  intros Hst (Hwf & Hb & Hv). destruct Hst as [s k|s f o t i Hc|s ord s' _ Hs].
  - split; [by apply add_gate_buffers_wf|].
    split; [by apply add_gate_ids_below|].
    eapply Forall_impl; [exact Hv|]. intros c. by apply add_gate_valid_connection.
  - split; [done|]. split; [done|].
    unfold wires_valid. simpl. apply Forall_app. split; [done|]. by constructor.
  - destruct (simulate_frame _ _ _ Hs) as (_ & Hconn & Hf).
    split; [by eapply buffers_wf_frame|].
    split; [by eapply simulate_ids_below|].
    unfold wires_valid. rewrite Hconn.
    eapply Forall_impl; [exact Hv|]. intros c. by apply valid_connection_frame.
Qed.

Lemma checked_reachable_invariant s :
  checked_reachable s -> buffers_wf (gates s) /\ ids_below s /\ wires_valid s.
Proof.
  unfold checked_reachable.
  assert (buffers_wf (gates new_sim) /\ ids_below new_sim /\ wires_valid new_sim) as H0.
  { split; [intros k g; simpl; by rewrite lookup_empty|].
    split; [intros k; simpl; rewrite lookup_empty; by intros [? ?]|].
    constructor. }
  revert H0. generalize new_sim as s0.
  intros s0 H0 Hr. induction Hr as [|x y z Hxy _ IH]; [done|].
  apply IH. by eapply checked_step_invariant.
Qed.

Lemma valid_connectionb_true gs c :
  valid_connection gs c -> valid_connectionb gs c = true.
Proof.
  destruct c as [[[from output] to] input]. simpl.
  intros [[gf [-> Ho]] [gt [-> Hi]]].
  rewrite !bool_decide_eq_true_2 by done. done.
Qed.

Lemma frame_rel_same_gate_sym gs gs' :
  frame_rel same_gate gs gs' -> frame_rel same_gate gs' gs.
Proof.
  intros H k. specialize (H k).
  destruct (gs !! k), (gs' !! k); try done.
  unfold same_gate in *. intuition congruence.
Qed.

(** A wire the propagate loop gets through is valid where it is read. *)
Lemma propagate_one_valid c gs gs' :
  propagate [c] gs = Some gs' -> valid_connection gs c.
Proof.
  destruct c as [[[from output] to] input]. simpl.
  destruct (gs !! from) as [gf|]; [|done].
  destruct (outputs gf !! output) as [v|] eqn:Hv; [|done].
  destruct (gs !! to) as [gt|]; [|done].
  destruct (set_index (inputs gt) input v) as [ins|] eqn:Hs; [|done].
  intros _. apply set_index_Some in Hs as [_ Hi].
  split; eexists; (split; [done|]); [|done].
  by eapply lookup_lt_Some.
Qed.

Lemma ticks_S_r n s :
  ticks (S n) s =
  match ticks n s with Some s' => simulate (some_order s') s' | None => None end.
Proof.
  revert s. induction n as [|n IH]; intros s.
  - simpl. by destruct (simulate _ s).
  - change (ticks (S (S n)) s) with
      (match simulate (some_order s) s with Some s' => ticks (S n) s' | None => None end).
    change (ticks (S n) s) with
      (match simulate (some_order s) s with Some s' => ticks n s' | None => None end).
    destruct (simulate (some_order s) s); [apply IH | done].
Qed.

Lemma not_loop_first : ticks 1 not_loop = Some not_loop_odd.
Proof. vm_compute. reflexivity. Qed.

Lemma not_loop_odd_step :
  simulate (some_order not_loop_odd) not_loop_odd = Some not_loop_even.
Proof. vm_compute. reflexivity. Qed.

Lemma not_loop_even_step :
  simulate (some_order not_loop_even) not_loop_even = Some not_loop_odd.
Proof. vm_compute. reflexivity. Qed.

Lemma not_loop_ticks n :
  ticks (S n) not_loop = Some (if Nat.even n then not_loop_odd else not_loop_even).
Proof.
  induction n as [|n IH]; [exact not_loop_first|].
  rewrite ticks_S_r, IH, Nat.even_succ, <- Nat.negb_even.
  destruct (Nat.even n); simpl.
  - exact not_loop_odd_step.
  - exact not_loop_even_step.
Qed.

Lemma trace_ids s ids s' :
  trace s ids s' ->
  NoDup ids /\ counter s <= counter s' /\
  Forall (fun id => counter s <= id < counter s') ids.
Proof.
  induction 1 as [s|s k ids s' _ (Hnd & Hle & Hall)|s f o t i ids s' _ IH
                 |s ord s1 ids s' _ Hs _ (Hnd & Hle & Hall)].
  - split; [constructor|]. split; [lia | constructor].
  - simpl in Hle, Hall. split; [|split; [lia|]].
    + constructor; [|done]. intros Hin.
      eapply Forall_forall in Hall; [|exact Hin]. simpl in Hall. lia.
    + constructor; [lia|]. eapply Forall_impl; [exact Hall|]. simpl. lia.
  - exact IH.
  - destruct (simulate_frame _ _ _ Hs) as (Hc & _). rewrite Hc in Hle, Hall.
    split; [done | split; [lia | done]].
Qed.

(* ------------------------------------------------------------------ *)
(** ** The propagate loop one wire at a time *)

Lemma propagate_cons_spec c cs gs :
  propagate (c :: cs) gs =
  if valid_connectionb gs c
  then propagate cs (write_input c.1.2 c.2 (read_output c.1.1.1 c.1.1.2 gs) gs)
  else None.
Proof.
  destruct c as [[[from output] to] input]. simpl.
  unfold read_output, write_input.
  destruct (gs !! from) as [gf|] eqn:Hf; [|done].
  destruct (outputs gf !! output) as [v|] eqn:Ho.
  - rewrite bool_decide_eq_true_2 by (by eapply lookup_lt_Some).
    destruct (gs !! to) as [gt|] eqn:Ht; [|done].
    unfold set_index. case_decide as Hi.
    + rewrite bool_decide_eq_true_2 by done. simpl.
      rewrite (list_lookup_total_correct _ _ _ Ho).
      by rewrite (alter_alt_Some _ _ _ _ Ht).
    + rewrite (bool_decide_eq_false_2 (input < length (inputs gt))) by done.
      by rewrite andb_false_r.
  - rewrite bool_decide_eq_false_2 by (apply lookup_ge_None in Ho; lia).
    by destruct (gs !! to).
Qed.

Lemma lookup_write_input to input v gs k :
  write_input to input v gs !! k =
  if decide (to = k)
  then (fun g => set_inputs g (<[input := v]> (inputs g))) <$> gs !! k
  else gs !! k.
Proof. unfold write_input. rewrite lookup_alter. by case_decide; subst. Qed.

Lemma valid_connectionb_write to input v gs c :
  valid_connectionb (write_input to input v gs) c = valid_connectionb gs c.
Proof.
  destruct c as [[[from output] to'] input']. simpl.
  rewrite !lookup_write_input.
  repeat case_decide; subst; repeat destruct (gs !! _); simpl;
    rewrite ?length_insert; done.
Qed.

(** A wire that is invalid in the gates it is checked against stops the
    propagate loop wherever it stands in the table. *)
Lemma propagate_invalid_wire cs gs c :
  c ∈ cs -> valid_connectionb gs c = false -> propagate cs gs = None.
Proof.
  revert gs. induction cs as [|c' cs IH]; intros gs Hin Hc; [set_solver|].
  rewrite propagate_cons_spec.
  destruct (valid_connectionb gs c') eqn:Hc'; [|done].
  apply elem_of_cons in Hin as [->|Hin]; [congruence|].
  apply IH; [done|]. by rewrite valid_connectionb_write.
Qed.

(* ================================================================== *)
(** * The claims *)

(** C1: one evaluate step of a gate sets its output buffer to the rule of
    its kind (AND: in0 && in1, AND3: in0 && in1 && in2, OR: in0 || in1,
    XOR: in0 xor in1, NOT: not in0), keeps its inputs, and the result
    depends on the inputs only: the previous output is never read. *)
Theorem C1_gate_truth_tables :
  (forall a b o nm,
     gate_state_update {| inputs := [a; b]; outputs := [o]; update_kind := And; name := nm |}
     = Some {| inputs := [a; b]; outputs := [a && b]; update_kind := And; name := nm |}) /\
  (forall a b c o nm,
     gate_state_update {| inputs := [a; b; c]; outputs := [o]; update_kind := And3; name := nm |}
     = Some {| inputs := [a; b; c]; outputs := [a && b && c]; update_kind := And3; name := nm |}) /\
  (forall a b o nm,
     gate_state_update {| inputs := [a; b]; outputs := [o]; update_kind := Or; name := nm |}
     = Some {| inputs := [a; b]; outputs := [a || b]; update_kind := Or; name := nm |}) /\
  (forall a b o nm,
     gate_state_update {| inputs := [a; b]; outputs := [o]; update_kind := Xor; name := nm |}
     = Some {| inputs := [a; b]; outputs := [xorb a b]; update_kind := Xor; name := nm |}) /\
  (forall a o nm,
     gate_state_update {| inputs := [a]; outputs := [o]; update_kind := Not; name := nm |}
     = Some {| inputs := [a]; outputs := [negb a]; update_kind := Not; name := nm |}) /\
  (forall k ins outs1 outs2,
     length outs1 = output_arity k -> length outs2 = output_arity k ->
     update_fn k ins outs1 = update_fn k ins outs2).
Proof.
  split; [reflexivity|]. split; [reflexivity|]. split; [reflexivity|].
  split; [intros [] [] o nm; reflexivity|]. split; [reflexivity|].
  intros k ins outs1 outs2 H1 H2. unfold update_fn.
  rewrite H1, H2. destruct k; simpl in *;
    (destruct outs1 as [|x1 [|]]; [done| |done]);
    (destruct outs2 as [|x2 [|]]; [done| |done]); done.
Qed.

Lemma C1_witness :
  length [false] = output_arity Xor /\ length [true] = output_arity Xor /\
  update_fn Xor [true; false] [false] = update_fn Xor [true; false] [true].
Proof.
  split; [reflexivity|]. split; [reflexivity|].
  destruct C1_gate_truth_tables as (_ & _ & _ & _ & _ & Hpure).
  apply Hpure; reflexivity.
Defined.

(** C2 (counterexample): in the chain of three NOT gates 0 -> 1 -> 2, from
    a settled state (a fixed point of the tick) with input 0 of gate 0 at
    false, driving that input to true leaves the output of gate 2 unchanged
    after 2 ticks. *)
Lemma C2_two_ticks_not_enough :
  match settled_chain false with
  | Some s0 =>
      simulate (some_order s0) s0 = Some s0 /\
      (ticks 2 (drive_input s0 0 0 true) ≫= fun s => output_at s 2 0)
      = output_at s0 2 0
  | None => False
  end.
Proof. vm_compute. split; reflexivity. Qed.

(** C2 (amended): in the chain of three NOT gates 0 -> 1 -> 2, from the
    settled state for either input value, a change driven into the input
    of gate 0 leaves the output of gate 2 unchanged after 1 and 2 ticks
    and changes it after exactly 3 ticks (one tick per gate); and the
    propagate loop only writes inputs, so every wire copies the output its
    source had before the tick. *)
Theorem C2_chain_three_ticks :
  (forall b, exists s0,
     settled_chain b = Some s0 /\
     simulate (some_order s0) s0 = Some s0 /\
     input_at s0 0 0 = Some b /\
     (ticks 1 (drive_input s0 0 0 (negb b)) ≫= fun s => output_at s 2 0)
       = output_at s0 2 0 /\
     (ticks 2 (drive_input s0 0 0 (negb b)) ≫= fun s => output_at s 2 0)
       = output_at s0 2 0 /\
     (ticks 3 (drive_input s0 0 0 (negb b)) ≫= fun s => output_at s 2 0)
       <> output_at s0 2 0) /\
  (forall cs gs gs', propagate cs gs = Some gs' ->
     forall k, option_map outputs (gs' !! k) = option_map outputs (gs !! k)).
Proof.
  split.
  - intros b. exists (match settled_chain b with Some s => s | None => new_sim end).
    destruct b; vm_compute; (split; [reflexivity|]);
      repeat split; try reflexivity; discriminate.
  - intros cs gs gs' Hp k. pose proof (propagate_frame _ _ _ Hp k) as H.
    destruct (gs !! k), (gs' !! k); try done. destruct H as [_ Ho]. simpl. congruence.
Qed.

Lemma C2_witness :
  propagate [(0, 0, 0, 0)] (gates (add_gate new_sim Not)) =
    Some (<[0 := {| inputs := [false]; outputs := [false];
                    update_kind := Not; name := "NOT" |}]> ∅) /\
  option_map outputs
    ((<[0 := {| inputs := [false]; outputs := [false];
                update_kind := Not; name := "NOT" |}]> ∅ : gmap nat GateState) !! 0)
  = option_map outputs (gates (add_gate new_sim Not) !! 0).
Proof.
  split; [vm_compute; reflexivity|].
  destruct C2_chain_three_ticks as [_ H]. apply (H [(0, 0, 0, 0)]).
  vm_compute. reflexivity.
Defined.

(** C3: the result of [n] ticks does not depend on the iteration order of
    the gate map (any two orders that enumerate the same keys give the same
    state, or both panic); and when several wires target one input slot,
    after a tick that slot holds the pre-tick output read by the last of
    them in the connection table. *)
Theorem C3_tick_deterministic :
  (forall n (o1 o2 : nat -> list nat) s,
     (forall i, o1 i ≡ₚ o2 i) -> run_ticks n o1 s = run_ticks n o2 s) /\
  (forall pre post from output to input ord s s',
     connections s = pre ++ [(from, output, to, input)] ++ post ->
     Forall (fun c : Connection => (c.1.2, c.2) <> (to, input)) post ->
     simulate ord s = Some s' ->
     exists gf v, gates s !! from = Some gf /\ outputs gf !! output = Some v /\
                  input_at s' to input = Some v).
Proof.
  split.
  - intros n. induction n as [|n IH]; intros o1 o2 s Ho; [done|].
    simpl. rewrite (simulate_perm _ _ s (Ho 0)).
    destruct (simulate (o2 0) s); [|done]. apply IH. intros i. apply Ho.
  - intros pre post from output to input ord s s' Hc Hpost Hs.
    unfold simulate in Hs. rewrite Hc in Hs.
    destruct (propagate _ _) as [gs1|] eqn:Hp; [|done].
    destruct (evaluate ord gs1) as [gs2|] eqn:He; [|done].
    injection Hs as <-.
    destruct (propagate_last_write _ _ _ _ _ _ _ _ Hp Hpost) as (gf & v & Hgf & Hv & Hin).
    exists gf, v. split; [done|]. split; [done|].
    pose proof (evaluate_frame _ _ _ He to) as Hf.
    unfold input_at. simpl. unfold input_of in Hin.
    destruct (gs1 !! to), (gs2 !! to); try done. destruct Hf as [_ Hi]. simpl in *. congruence.
Qed.

Lemma C3_witness :
  (forall i : nat, [0; 1] ≡ₚ [1; 0]) /\
  run_ticks 2 (fun _ => [0; 1]) not_chain = run_ticks 2 (fun _ => [1; 0]) not_chain.
Proof.
  assert (forall i : nat, [0; 1] ≡ₚ [1; 0]) as Hp by (intros; apply Permutation_swap).
  split; [exact Hp|].
  destruct C3_tick_deterministic as [H _]. apply H. exact Hp.
Defined.

(** C4 (counterexample): [add_connection] on an empty simulation with a
    wire between two gate ids that are not registered does not leave the
    connection table unchanged: the wire is appended. *)
Lemma C4_invalid_wire_appended :
  valid_connectionb (gates new_sim) (0, 0, 0, 0) = false /\
  connections (add_connection new_sim 0 0 0 0) = [(0, 0, 0, 0)] /\
  connections (add_connection new_sim 0 0 0 0) <> connections new_sim.
Proof. split; [reflexivity|]. split; [reflexivity|]. discriminate. Qed.

(** C4 (amended): [add_connection] never fails and never checks its
    arguments: it always appends the wire to the end of the connection
    table and leaves the gates and the counter unchanged.  A wire of the
    table whose gate ids are not registered or whose slots are out of range
    of the current buffers makes every tick panic, the tick right after
    [add_connection] included, for as long as it stays invalid; a gate
    registered later can make it valid, and ticks then complete again. *)
Theorem C4_add_connection_unchecked :
  (forall s from output to input,
     add_connection s from output to input =
     {| counter := counter s; gates := gates s;
        connections := connections s ++ [(from, output, to, input)] |}) /\
  (forall s from output to input ord,
     valid_connectionb (gates s) (from, output, to, input) = false ->
     simulate ord (add_connection s from output to input) = None) /\
  (forall s c ord,
     c ∈ connections s -> valid_connectionb (gates s) c = false ->
     simulate ord s = None) /\
  simulate [0] (add_gate (add_connection new_sim 0 0 0 0) Not) <> None.
Proof.
  split; [done|]. split; [|split].
  2:{ intros s c ord Hin Hc. unfold simulate.
      by rewrite (propagate_invalid_wire _ _ _ Hin Hc). }
  2:{ vm_compute. discriminate. }
  intros s from output to input ord Hinv. unfold simulate. simpl.
  rewrite propagate_app.
  destruct (propagate (connections s) (gates s)) as [gs1|] eqn:Hp; [|done].
  destruct (propagate [(from, output, to, input)] gs1) as [gs2|] eqn:H1; [|done].
  exfalso. apply propagate_one_valid in H1.
  assert (frame_rel same_gate gs1 (gates s)) as Hf.
  { apply frame_rel_same_gate_sym.
    apply (frame_rel_weaken same_outputs); [intros ? ? []; done|].
    by eapply propagate_frame. }
  pose proof (valid_connection_frame _ _ _ Hf H1) as Hv.
  apply valid_connectionb_true in Hv. congruence.
Qed.

Lemma C4_witness :
  (valid_connectionb (gates (add_gate new_sim Not)) (0, 0, 0, 1) = false /\
   simulate [0] (add_connection (add_gate new_sim Not) 0 0 0 1) = None) /\
  ((0, 0, 0, 1) ∈ connections (add_gate (add_connection (add_gate new_sim Not) 0 0 0 1) And) /\
   valid_connectionb (gates (add_gate (add_connection (add_gate new_sim Not) 0 0 0 1) And))
     (0, 0, 0, 1) = false /\
   simulate [0; 1] (add_gate (add_connection (add_gate new_sim Not) 0 0 0 1) And) = None).
Proof.
  destruct C4_add_connection_unchecked as [_ [H1 [H2 _]]].
  split; [split; [reflexivity | apply H1; reflexivity]|].
  split; [simpl; set_solver|]. split; [reflexivity|].
  apply (H2 _ (0, 0, 0, 1)); [simpl; set_solver | reflexivity].
Defined.

(** C5 (counterexample): after registering one gate (id 0), asking for the
    state or the name of id 7 does not return an error value: the
    [unwrap] panics. *)
Lemma C5_unknown_id_panics :
  get_gate_state (add_gate new_sim And) 7 = None /\
  get_gate_name (add_gate new_sim And) 7 = None.
Proof. split; reflexivity. Qed.

(** C5 (amended): for an id that is not registered, [get_gate_state] and
    [get_gate_name] panic (the [unwrap] of a missing entry; there is no
    error value to recover from); for a registered id they return that
    gate's current input and output buffers and its name.  Neither changes
    the simulation (both take [&self]). *)
Theorem C5_lookup_unknown_panics :
  forall s id,
    (gates s !! id = None ->
       get_gate_state s id = None /\ get_gate_name s id = None) /\
    (forall g, gates s !! id = Some g ->
       get_gate_state s id = Some (inputs g, outputs g) /\
       get_gate_name s id = Some (name g)).
Proof.
  intros s id. unfold get_gate_state, get_gate_name. split.
  - intros ->. done.
  - intros g ->. done.
Qed.

Lemma C5_witness :
  gates (add_gate new_sim Or) !! 0 =
    Some {| inputs := [false; false]; outputs := [false];
            update_kind := Or; name := "OR" |} /\
  get_gate_state (add_gate new_sim Or) 0 = Some ([false; false], [false]) /\
  get_gate_name (add_gate new_sim Or) 0 = Some "OR"%string.
Proof.
  assert (gates (add_gate new_sim Or) !! 0 =
    Some {| inputs := [false; false]; outputs := [false];
            update_kind := Or; name := "OR" |}) as Hg by reflexivity.
  split; [exact Hg|].
  exact (proj2 (C5_lookup_unknown_panics (add_gate new_sim Or) 0) _ Hg).
Defined.

(** C6 (counterexample): [add_connection] on the empty simulation with a
    wire from gate 0 to gate 0 gives a reachable state in which the tick
    panics (the [unwrap] of [self.gates.get(from)]). *)
Lemma C6_reachable_tick_panics :
  reachable (add_connection new_sim 0 0 0 0) /\
  iteration_order [] (gates (add_connection new_sim 0 0 0 0)) /\
  simulate [] (add_connection new_sim 0 0 0 0) = None.
Proof.
  split; [apply rtc_once, step_add_connection|].
  split; [unfold iteration_order; vm_compute; reflexivity | reflexivity].
Qed.

(** C6 (amended): in every state reached from [Simulation::new] by
    [add_gate], [simulate] and calls of [add_connection] whose endpoints
    are registered and whose slots are within the buffers, a tick with any
    iteration order of the gate map completes without panicking: every map
    lookup succeeds and every slot index is in bounds. *)
Theorem C6_checked_tick_total :
  forall s ord,
    checked_reachable s -> iteration_order ord (gates s) ->
    exists s', simulate ord s = Some s'.
Proof.
  intros s ord Hr Ho.
  destruct (checked_reachable_invariant s Hr) as (Hwf & _ & Hv).
  by apply simulate_total.
Qed.

Lemma C6_witness :
  checked_reachable not_loop /\ iteration_order [0] (gates not_loop) /\
  exists s', simulate [0] not_loop = Some s'.
Proof.
  assert (checked_reachable not_loop) as Hr.
  { eapply rtc_l; [apply (cstep_add_gate new_sim Not)|].
    eapply rtc_l; [apply cstep_add_connection|]; [|apply rtc_refl].
    split; eexists; split; try reflexivity; simpl; lia. }
  assert (iteration_order [0] (gates not_loop)) as Ho
    by (unfold iteration_order; vm_compute; reflexivity).
  split; [exact Hr|]. split; [exact Ho|].
  exact (C6_checked_tick_total not_loop [0] Hr Ho).
Defined.

(** C7: [add_gate] stores, under the current counter, a gate with all-false
    input and output buffers of the kind's arities, and that id is not
    registered in any reachable state; along any run of the public
    operations the ids handed out are pairwise distinct (and each is below
    the counter afterwards); and every operation keeps the buffer lengths
    equal to the arities and every registered id below the counter. *)
Theorem C7_register_fresh_ids :
  (forall s k,
     gates (add_gate s k) !! counter s =
       Some {| inputs := replicate (input_arity k) false;
               outputs := replicate (output_arity k) false;
               update_kind := k; name := gate_name k |} /\
     counter (add_gate s k) = S (counter s) /\
     (reachable s -> gates s !! counter s = None)) /\
  (forall ids s, trace new_sim ids s ->
     NoDup ids /\ Forall (fun id => id < counter s) ids) /\
  (forall s, reachable s -> buffers_wf (gates s) /\ ids_below s) /\
  (forall s s', step s s' ->
     buffers_wf (gates s) /\ ids_below s -> buffers_wf (gates s') /\ ids_below s').
Proof.
  split; [|split; [|split]].
  - intros s k. split; [apply lookup_insert_eq|]. split; [done|].
    intros Hr. apply fresh_id. apply reachable_invariant, Hr.
  - intros ids s Ht. destruct (trace_ids _ _ _ Ht) as (Hnd & _ & Hall).
    split; [done|]. eapply Forall_impl; [exact Hall|]. simpl. lia.
  - exact reachable_invariant.
  - exact step_invariant.
Qed.

Lemma C7_witness :
  trace new_sim [0; 1] (add_gate (add_connection (add_gate new_sim Not) 0 0 0 0) And) /\
  NoDup [0; 1] /\ Forall (fun id => id < 2) [0; 1].
Proof.
  assert (trace new_sim [0; 1]
            (add_gate (add_connection (add_gate new_sim Not) 0 0 0 0) And)) as Ht.
  { apply (trace_add_gate new_sim Not).
    apply (trace_add_connection _ 0 0 0 0).
    apply (trace_add_gate (add_connection (add_gate new_sim Not) 0 0 0 0) And []).
    apply trace_nil. }
  split; [exact Ht|].
  destruct C7_register_fresh_ids as (_ & H & _). exact (H _ _ Ht).
Defined.

(** C8 (counterexample): the state of the NOT loop after two ticks from
    registration differs from its registration state (its input is true
    after two ticks and false at registration). *)
Lemma C8_two_ticks_from_start :
  ticks 2 not_loop = Some not_loop_even /\
  get_gate_state not_loop 0 = Some ([false], [false]) /\
  get_gate_state not_loop_even 0 = Some ([true], [false]) /\
  ticks 2 not_loop <> Some not_loop.
Proof.
  split; [vm_compute; reflexivity|]. split; [reflexivity|].
  split; [reflexivity|]. vm_compute. discriminate.
Qed.

(** C8 (amended): for the NOT gate wired to itself, from its all-false
    registration state every tick completes, the output is true after an
    odd number of ticks and false after an even number, and once at least
    one tick has run, two more ticks give back the same state. *)
Theorem C8_not_loop_oscillates :
  forall n,
    (exists s, ticks n not_loop = Some s /\ output_at s 0 0 = Some (Nat.odd n)) /\
    (1 <= n -> ticks (n + 2) not_loop = ticks n not_loop).
Proof.
  intros n. split.
  - destruct n as [|n].
    + eexists. split; reflexivity.
    + rewrite not_loop_ticks. eexists. split; [reflexivity|].
      rewrite Nat.odd_succ. by destruct (Nat.even n).
  - intros Hn. destruct n as [|n]; [lia|].
    replace (S n + 2) with (S (S (S n))) by lia.
    rewrite !not_loop_ticks, !Nat.even_succ, Nat.odd_succ.
    by destruct (Nat.even n).
Qed.

Lemma C8_witness :
  1 <= 3 /\ ticks (3 + 2) not_loop = ticks 3 not_loop.
Proof.
  split; [lia|]. apply (proj2 (C8_not_loop_oscillates 3)). lia.
Defined.

#[local] Set Warnings "-inexact-float".

(** C9: each frame computes [iterations = elapsed / period +
    elapsed_remainder]; when it is at least 1 the frame runs
    [trunc(iterations)] ticks, restarts the elapsed time and carries
    [fract(iterations)]; otherwise it runs no tick and changes nothing, so
    the elapsed time keeps growing from the same [last_update].  At 10 Hz
    (period: the [f32] value of 1/10) with no remainder, 1.05 s gives 10
    ticks and a remainder within 1e-6 of 0.5, while 0.05 s gives none. *)
Theorem C9_clock_conversion :
  (forall frequency now now' c s,
     main_frame frequency now now' c s =
     let iterations :=
       ((now - last_update c) / round_f32 (1 / frequency) + elapsed_remainder c)%float in
     if (1 <=? iterations)%float
     then ({| last_update := now'; elapsed_remainder := fract iterations |},
           ticks (to_usize (trunc iterations)) s)
     else (c, Some s)) /\
  round_f32 (1 / 10)%float = 0.100000001490116119384765625%float /\
  fst (frame 10 1.05 1.05 {| last_update := 0; elapsed_remainder := 0 |}) = 10%nat /\
  last_update (snd (frame 10 1.05 1.05 {| last_update := 0; elapsed_remainder := 0 |}))
    = 1.05%float /\
  (abs (elapsed_remainder
          (snd (frame 10 1.05 1.05 {| last_update := 0; elapsed_remainder := 0 |}))
        - 0.5) <=? 1e-6)%float = true /\
  frame 10 0.05 0.05 {| last_update := 0; elapsed_remainder := 0 |}
    = (0%nat, {| last_update := 0; elapsed_remainder := 0 |}).
Proof.
  split.
  - intros frequency now now' c s. unfold main_frame, frame. simpl.
    destruct (_ <=? _)%float; reflexivity.
  - vm_compute. repeat split; reflexivity.
Qed.

(** C10: a tick that completes changes only the gates' buffers: the
    counter, the connection table, the set of registered ids and each
    gate's update function and name are the same afterwards. *)
Theorem C10_tick_frame :
  forall ord s s',
    simulate ord s = Some s' ->
    counter s' = counter s /\ connections s' = connections s /\
    (forall id, is_Some (gates s !! id) <-> is_Some (gates s' !! id)) /\
    (forall id g g', gates s !! id = Some g -> gates s' !! id = Some g' ->
       update_kind g' = update_kind g /\ name g' = name g).
Proof.
  intros ord s s' Hs. destruct (simulate_frame _ _ _ Hs) as (Hc & Hconn & Hf).
  split; [done|]. split; [done|]. split.
  - intros id. exact (frame_rel_is_Some same_gate _ _ id Hf).
  - intros id g g' Hg Hg'. specialize (Hf id). rewrite Hg, Hg' in Hf.
    destruct Hf as (? & ? & _). done.
Qed.

Lemma C10_witness :
  simulate [0] not_loop = Some not_loop_odd /\ counter not_loop_odd = counter not_loop /\
  connections not_loop_odd = connections not_loop.
Proof.
  assert (simulate [0] not_loop = Some not_loop_odd) as Hs by (vm_compute; reflexivity).
  split; [exact Hs|].
  destruct (C10_tick_frame [0] not_loop not_loop_odd Hs) as (Hc & Hconn & _).
  split; [exact Hc | exact Hconn].
Defined.

(* ================================================================== *)
(** * Further properties of the code *)

(* ------------------------------------------------------------------ *)
(** ** [draw_gate] *)

Lemma last_hit_shift hit n :
  last_hit hit (S n) =
  match last_hit (fun i => hit (S i)) n with
  | Some i => Some (S i)
  | None => if hit 0 then Some 0 else None
  end.
Proof.
  induction n as [|n IH]; [done|].
  change (last_hit hit (S (S n))) with
    (if hit (S n) then Some (S n) else last_hit hit (S n)).
  rewrite IH. simpl. by destruct (hit (S n)).
Qed.

Lemma last_hit_ext hit1 hit2 n :
  (forall i, hit1 i = hit2 i) -> last_hit hit1 n = last_hit hit2 n.
Proof. intros H. induction n as [|n IH]; [done|]. simpl. by rewrite H, IH. Qed.

Lemma scan_slots_last hit mk index slots acc :
  scan_slots hit mk index slots acc =
  match last_hit (fun i => hit (index + i)) (length slots) with
  | Some i => Some (mk (index + i))
  | None => acc
  end.
Proof.
  revert index acc. induction slots as [|b slots IH]; intros index acc; [done|].
  simpl length. rewrite last_hit_shift. simpl. rewrite IH.
  rewrite (last_hit_ext (fun i => hit (S index + i)) (fun i => hit (index + S i)))
    by (intros; f_equal; lia).
  destruct (last_hit _ (length slots)) as [i|].
  - do 2 f_equal. lia.
  - rewrite Nat.add_0_r. destruct (hit index); [|done]. by rewrite Nat.add_0_r.
Qed.

Lemma last_hit_Some hit n i :
  last_hit hit n = Some i -> i < n /\ hit i = true /\
  forall j, i < j < n -> hit j = false.
Proof.
  induction n as [|n IH]; [done|]. simpl.
  destruct (hit n) eqn:Hn.
  - intros [= <-]. split; [lia|]. split; [done|]. lia.
  - intros H. destruct (IH H) as (? & ? & Hj). split; [lia|]. split; [done|].
    intros j ?. destruct (decide (j = n)) as [->|]; [done|]. apply Hj. lia.
Qed.

Lemma last_hit_None hit n :
  last_hit hit n = None -> forall j, j < n -> hit j = false.
Proof.
  induction n as [|n IH]; [lia|]. simpl.
  destruct (hit n) eqn:Hn; [done|]. intros H j ?.
  destruct (decide (j = n)) as [->|]; [done|]. apply IH; [done|lia].
Qed.

(* ------------------------------------------------------------------ *)
(** ** Wires with distinct destinations commute *)

Lemma read_output_write to input v gs from output :
  read_output from output (write_input to input v gs) = read_output from output gs.
Proof.
  unfold read_output. rewrite lookup_write_input.
  case_decide; [destruct (gs !! from)|]; done.
Qed.

Lemma write_input_commute t1 i1 v1 t2 i2 v2 gs :
  (t1, i1) <> (t2, i2) ->
  write_input t1 i1 v1 (write_input t2 i2 v2 gs) =
  write_input t2 i2 v2 (write_input t1 i1 v1 gs).
Proof.
  intros Hne. unfold write_input.
  destruct (decide (t1 = t2)) as [<-|Ht].
  - rewrite !alter_alter_eq. apply alter_ext. intros g _. simpl.
    unfold set_inputs. simpl. rewrite list_insert_insert_ne by congruence. done.
  - by apply alter_alter_ne.
Qed.

Lemma propagate_swap c1 c2 cs gs :
  dest c1 <> dest c2 ->
  propagate (c1 :: c2 :: cs) gs = propagate (c2 :: c1 :: cs) gs.
Proof.
  intros Hne. rewrite !propagate_cons_spec, !valid_connectionb_write,
    !read_output_write.
  destruct (valid_connectionb gs c1), (valid_connectionb gs c2); try done.
  rewrite write_input_commute; [done|]. unfold dest in Hne. congruence.
Qed.

Lemma propagate_perm cs1 cs2 gs :
  cs1 ≡ₚ cs2 -> NoDup (dest <$> cs1) -> propagate cs1 gs = propagate cs2 gs.
Proof.
  intros Hp. revert gs.
  induction Hp as [|c l1 l2 _ IH|c1 c2 l|l1 l2 l3 H12 IH1 _ IH2]; intros gs Hnd.
  - done.
  - rewrite !propagate_cons_spec. destruct (valid_connectionb gs c); [|done].
    apply IH. simpl in Hnd. by inversion Hnd.
  - simpl in Hnd. apply propagate_swap.
    inversion Hnd as [|? ? Hnotin _]; subst. intros Heq. apply Hnotin.
    rewrite Heq. set_solver.
  - rewrite IH1 by done. apply IH2.
    by rewrite <- (fmap_Permutation dest l1 l2 H12).
Qed.

(* ------------------------------------------------------------------ *)
(** ** Gates after the evaluate loop *)

Lemma update_fn_settled k ins outs outs' :
  update_fn k ins outs = Some outs' ->
  length ins = input_arity k /\ outs' = [gate_update_array k ins].
Proof.
  unfold update_fn. case_decide as Hi; [|done]. case_decide as Ho; [|done].
  intros [= <-]. split; [done|].
  destruct k; simpl in Ho; (destruct outs as [|x [|]]; [done| |done]); done.
Qed.

Lemma gate_state_update_settled g g' :
  gate_state_update g = Some g' -> settled_gate g' /\ same_inputs g g'.
Proof.
  unfold gate_state_update.
  destruct (update_fn _ _ _) as [outs|] eqn:Hu; [|done]. intros [= <-].
  destruct (update_fn_settled _ _ _ _ Hu) as [Hi ->].
  split; [split; done|]. repeat split; simpl. apply (update_fn_length _ _ _ _ Hu).
Qed.

Lemma evaluate_settled ord gs gs' :
  evaluate ord gs = Some gs' ->
  forall k, (k ∈ ord -> exists g, gs' !! k = Some g /\ settled_gate g) /\
            (k ∉ ord -> gs' !! k = gs !! k).
Proof.
  revert gs. induction ord as [|k0 ord IH]; intros gs H k.
  - simpl in H. simplify_eq. split; [set_solver | done].
  - simpl in H. destruct (gs !! k0) as [g|] eqn:Hg; [|done].
    destruct (gate_state_update g) as [g'|] eqn:Hu; [|done].
    destruct (IH _ H k) as [Hin Hout]. split.
    + intros Hk. destruct (decide (k ∈ ord)) as [Hk'|Hk']; [by apply Hin|].
      rewrite Hout by done. assert (k = k0) as -> by set_solver.
      rewrite lookup_insert_eq. exists g'. split; [done|].
      apply (gate_state_update_settled _ _ Hu).
    + intros Hk. rewrite Hout by set_solver.
      apply lookup_insert_ne. set_solver.
Qed.

Lemma iteration_order_complete ord gs k :
  iteration_order ord gs -> is_Some (gs !! k) -> k ∈ ord.
Proof.
  unfold iteration_order. intros Hp [g Hg]. rewrite Hp.
  apply list_elem_of_fmap. exists (k, g). split; [done|].
  by apply elem_of_map_to_list.
Qed.

Lemma settled_gate_update g : settled_gate g -> gate_state_update g = Some g.
Proof.
  intros [Hi Ho]. unfold gate_state_update, update_fn.
  rewrite decide_True by done.
  rewrite decide_True by (rewrite Ho; by destruct (update_kind g)).
  rewrite Ho. destruct g as [ins outs k nm]. simpl in *. by rewrite <- Ho.
Qed.

Lemma evaluate_settled_id ord gs :
  (forall k, k ∈ ord -> exists g, gs !! k = Some g /\ settled_gate g) ->
  evaluate ord gs = Some gs.
Proof.
  induction ord as [|k ord IH]; intros H; [done|]. simpl.
  destruct (H k ltac:(set_solver)) as (g & Hg & Hs). rewrite Hg.
  rewrite (settled_gate_update g Hs). rewrite insert_id by done.
  apply IH. intros j Hj. apply H. set_solver.
Qed.

Lemma simulate_settled ord s s' :
  simulate ord s = Some s' -> iteration_order ord (gates s) ->
  forall id g, gates s' !! id = Some g -> settled_gate g.
Proof.
  intros Hs Ho id g Hg. unfold simulate in Hs.
  destruct (propagate _ _) as [gs1|] eqn:Hp; [|done].
  destruct (evaluate ord gs1) as [gs2|] eqn:He; [|done].
  injection Hs as <-. simpl in Hg.
  assert (id ∈ ord) as Hid.
  { eapply iteration_order_complete; [exact Ho|].
    apply (frame_rel_is_Some _ _ _ id (propagate_frame _ _ _ Hp)).
    apply (frame_rel_is_Some _ _ _ id (evaluate_frame _ _ _ He)).
    rewrite Hg. by eexists. }
  destruct (proj1 (evaluate_settled _ _ _ He id) Hid) as (g' & Hg' & Hset).
  congruence.
Qed.

(* ------------------------------------------------------------------ *)
(** ** Inputs no wire drives *)

Lemma undriven_false_step s s' :
  step s s' -> undriven_false s -> undriven_false s'.
Proof.
  intros Hst Hu id slot Hall. destruct Hst as [s k|s f o t i|s ord s' _ Hs].
  - unfold input_of. simpl. destruct (decide (id = counter s)) as [->|Hne].
    + rewrite lookup_insert_eq. simpl. intros Hl.
      apply lookup_replicate in Hl as [? _]. done.
    + rewrite lookup_insert_ne by congruence. apply (Hu id slot Hall).
  - simpl in Hall. apply Forall_app in Hall as [Hall _]. exact (Hu id slot Hall).
  - destruct (simulate_frame _ _ _ Hs) as (_ & Hconn & _).
    rewrite Hconn in Hall. unfold simulate in Hs.
    destruct (propagate _ _) as [gs1|] eqn:Hp; [|done].
    destruct (evaluate ord gs1) as [gs2|] eqn:He; [|done].
    injection Hs as <-. simpl.
    assert (input_of gs2 id slot = input_of gs1 id slot) as ->.
    { pose proof (evaluate_frame _ _ _ He id) as Hf. unfold input_of.
      destruct (gs1 !! id), (gs2 !! id); try done.
      destruct Hf as [_ Hin]. simpl. by rewrite Hin. }
    rewrite (propagate_untouched _ _ _ _ _ Hp Hall). exact (Hu id slot Hall).
Qed.

(* ------------------------------------------------------------------ *)
(** ** Nothing is ever removed *)

Lemma gates_kept_frame gs gs' : frame_rel same_gate gs gs' -> gates_kept gs gs'.
Proof.
  intros Hf id g Hg. specialize (Hf id). rewrite Hg in Hf.
  destruct (gs' !! id); [by eexists | done].
Qed.

Lemma step_kept s s' :
  ids_below s -> step s s' ->
  gates_kept (gates s) (gates s') /\ exists l, connections s' = connections s ++ l.
Proof.
  intros Hb Hst. destruct Hst as [s k|s f o t i|s ord s' _ Hs].
  - split; [|exists []; by rewrite app_nil_r].
    intros id g Hg. exists g. split; [|apply same_gate_refl]. simpl.
    rewrite lookup_insert_ne; [done|]. intros Heq. subst id.
    by rewrite (fresh_id s Hb) in Hg.
  - split; [|by eexists]. intros id g Hg. exists g. split; [done | apply same_gate_refl].
  - destruct (simulate_frame _ _ _ Hs) as (_ & Hconn & Hf).
    split; [by apply gates_kept_frame|]. exists []. by rewrite Hconn, app_nil_r.
Qed.

(* ------------------------------------------------------------------ *)
(** ** The [main] loop *)

Lemma draw_gate_hover_spec in_hit out_hit box_hit ins outs :
  draw_gate_hover in_hit out_hit box_hit ins outs =
  match last_hit out_hit (length outs) with
  | Some o => Some (HoverOutput o)
  | None =>
      match last_hit in_hit (length ins) with
      | Some i => Some (HoverInput i)
      | None => if box_hit then Some HoverGate else None
      end
  end.
Proof.
  unfold draw_gate_hover. rewrite !scan_slots_last.
  rewrite (last_hit_ext (fun i => out_hit (0 + i)) out_hit) by done.
  rewrite (last_hit_ext (fun i => in_hit (0 + i)) in_hit) by done.
  destruct (last_hit out_hit _); [done|]. by destruct (last_hit in_hit _).
Qed.

Lemma ui_init_invariant : ui_invariant ui_init.
Proof.
  assert (checked_reachable main_sim) as Hr.
  { unfold checked_reachable, main_sim.
    eapply rtc_r; [|apply cstep_add_gate]. eapply rtc_r; [|apply cstep_add_gate].
    eapply rtc_r; [|apply cstep_add_gate]. eapply rtc_r; [|apply cstep_add_gate].
    eapply rtc_r; [|apply cstep_add_gate]. apply rtc_refl. }
  destruct (checked_reachable_invariant _ Hr) as (Hwf & Hb & Hv).
  split; [done|]. split; [done|]. split; [done|]. split.
  - intros id Hid. apply list_elem_of_In in Hid. simpl in Hid.
    destruct Hid as [<-|[<-|[<-|[<-|[<-|[]]]]]]; vm_compute; by eexists.
  - split; simpl; done.
Qed.

Lemma draw_gate_hover_input in_hit out_hit box_hit ins outs i :
  draw_gate_hover in_hit out_hit box_hit ins outs = Some (HoverInput i) ->
  i < length ins /\ in_hit i = true /\
  (forall j, i < j < length ins -> in_hit j = false) /\
  (forall o, o < length outs -> out_hit o = false).
Proof.
  rewrite draw_gate_hover_spec.
  destruct (last_hit out_hit _) eqn:Ho; [done|].
  destruct (last_hit in_hit _) eqn:Hi; [|by destruct box_hit].
  intros [= ->]. destruct (last_hit_Some _ _ _ Hi) as (? & ? & ?).
  repeat split; try done. by apply last_hit_None.
Qed.

Lemma draw_gate_hover_output in_hit out_hit box_hit ins outs o :
  draw_gate_hover in_hit out_hit box_hit ins outs = Some (HoverOutput o) ->
  o < length outs /\ out_hit o = true /\
  (forall j, o < j < length outs -> out_hit j = false).
Proof.
  rewrite draw_gate_hover_spec.
  destruct (last_hit out_hit _) eqn:Ho.
  - intros [= ->]. by apply last_hit_Some.
  - destruct (last_hit in_hit _); [done|]. by destruct box_hit.
Qed.

Lemma ui_step_invariant u u' :
  ui_step u u' -> ui_invariant u -> ui_invariant u'.
Proof.
  intros Hst.
  destruct Hst as [u|u ord s' _ Hs|u id in_hit out_hit box_hit pressed u' _ Hh];
    intros Hinv; pose proof Hinv as (Hwf & Hb & Hv & Hboard & Hsi & Hso).
  - unfold ui_connect.
    destruct (selected_input u) as [[ig ii]|] eqn:Hi;
      [|exact Hinv].
    destruct (selected_output u) as [[og oi]|] eqn:Ho;
      [|exact Hinv].
    destruct (Hsi _ _ eq_refl) as (gi & Hgi & Hii).
    destruct (Hso _ _ eq_refl) as (go & Hgo & Hoi).
    split; [done|]. split; [done|]. split.
    + unfold wires_valid. simpl. apply Forall_app. split; [done|].
      apply Forall_singleton. split; eexists; split; eauto.
    + split; [done|]. split; done.
  - destruct (simulate_frame _ _ _ Hs) as (Hc & Hconn & Hf). simpl.
    split; [by eapply buffers_wf_frame|].
    split; [by eapply simulate_ids_below|].
    split.
    { unfold wires_valid. simpl. rewrite Hconn. eapply Forall_impl; [exact Hv|].
      intros c. by apply valid_connection_frame. }
    split.
    { intros id Hid. apply (frame_rel_is_Some _ _ _ _ Hf). by apply Hboard. }
    split.
    + intros ig ii Hsel. destruct (Hsi _ _ Hsel) as (g & Hg & Hl).
      pose proof (Hf ig) as H. rewrite Hg in H.
      destruct (gates s' !! ig) eqn:Hg'; [|done]. destruct H as (_ & _ & Hlen & _).
      eexists; split; [done | lia].
    + intros og oi Hsel. destruct (Hso _ _ Hsel) as (g & Hg & Hl).
      pose proof (Hf og) as H. rewrite Hg in H.
      destruct (gates s' !! og) eqn:Hg'; [|done]. destruct H as (_ & _ & _ & Hlen).
      eexists; split; [done | lia].
  - unfold ui_hover, get_gate_state, get_gate_name in Hh.
    destruct (gates (sim u) !! id) as [g|] eqn:Hg; [|done].
    destruct (draw_gate_hover _ _ _ _ _) as [[i|o|]|] eqn:Hd; injection Hh as <-;
      try exact Hinv.
    + destruct pressed; [|exact Hinv].
      destruct (draw_gate_hover_input _ _ _ _ _ _ Hd) as (Hi & _).
      refine (conj Hwf (conj Hb (conj Hv (conj Hboard (conj _ Hso))))).
      simpl. intros ig ii [= <- <-]. by exists g.
    + destruct pressed; [|exact Hinv].
      destruct (draw_gate_hover_output _ _ _ _ _ _ Hd) as (Ho & _).
      refine (conj Hwf (conj Hb (conj Hv (conj Hboard (conj Hsi _))))).
      simpl. intros og oi [= <- <-]. by exists g.
Qed.

Lemma ui_reachable_invariant u : ui_reachable u -> ui_invariant u.
Proof.
  unfold ui_reachable. intros H.
  cut (forall u0, rtc ui_step u0 u -> ui_invariant u0 -> ui_invariant u).
  { intros Hc. apply (Hc ui_init H ui_init_invariant). }
  clear H. intros u0 H. induction H as [|x y z Hxy _ IH]; [done|].
  intros Hx. apply IH. by eapply ui_step_invariant.
Qed.

Lemma ui_hover_total u id in_hit out_hit box_hit pressed :
  is_Some (gates (sim u) !! id) ->
  exists u', ui_hover in_hit out_hit box_hit pressed id u = Some u'.
Proof.
  intros [g Hg]. unfold ui_hover, get_gate_state, get_gate_name. rewrite Hg.
  destruct (draw_gate_hover _ _ _ _ _) as [[i|o|]|]; eexists; done.
Qed.

Lemma gates_kept_trans gs1 gs2 gs3 :
  gates_kept gs1 gs2 -> gates_kept gs2 gs3 -> gates_kept gs1 gs3.
Proof.
  intros H12 H23 id g Hg. destruct (H12 _ _ Hg) as (g2 & Hg2 & Hs2).
  destruct (H23 _ _ Hg2) as (g3 & Hg3 & Hs3). exists g3. split; [done|].
  by eapply same_gate_trans.
Qed.

Lemma steps_kept s s' :
  buffers_wf (gates s) /\ ids_below s -> rtc step s s' ->
  gates_kept (gates s) (gates s') /\ exists l, connections s' = connections s ++ l.
Proof.
  intros Hinv H. induction H as [s|s s1 s' Hst _ IH].
  - split; [intros id g Hg; exists g; split; [done | apply same_gate_refl]|].
    exists []. by rewrite app_nil_r.
  - destruct (step_kept s s1 (proj2 Hinv) Hst) as [Hk1 [l1 Hl1]].
    destruct (IH (step_invariant _ _ Hst Hinv)) as [Hk2 [l2 Hl2]].
    split; [by eapply gates_kept_trans|]. exists (l1 ++ l2).
    by rewrite Hl2, Hl1, app_assoc.
Qed.

Lemma evaluate_input_of ord gs gs' id slot :
  evaluate ord gs = Some gs' -> input_of gs' id slot = input_of gs id slot.
Proof.
  intros He. pose proof (evaluate_frame _ _ _ He id) as Hf. unfold input_of.
  destruct (gs !! id), (gs' !! id); try done.
  destruct Hf as [_ Hin]. simpl. by rewrite Hin.
Qed.

(* ------------------------------------------------------------------ *)
(** ** Extra properties *)

(** X1: [draw_gate] reports the highest output slot the mouse is over if
    there is one, otherwise the highest input slot, otherwise the gate body
    if the mouse is inside it, otherwise nothing. *)
Theorem X1_draw_gate_hover_result in_hit out_hit box_hit ins outs :
  match draw_gate_hover in_hit out_hit box_hit ins outs with
  | Some (HoverOutput o) =>
      o < length outs /\ out_hit o = true /\
      (forall j, o < j < length outs -> out_hit j = false)
  | Some (HoverInput i) =>
      (forall o, o < length outs -> out_hit o = false) /\
      i < length ins /\ in_hit i = true /\
      (forall j, i < j < length ins -> in_hit j = false)
  | Some HoverGate =>
      box_hit = true /\
      (forall o, o < length outs -> out_hit o = false) /\
      (forall i, i < length ins -> in_hit i = false)
  | None =>
      box_hit = false /\
      (forall o, o < length outs -> out_hit o = false) /\
      (forall i, i < length ins -> in_hit i = false)
  end.
Proof.
  rewrite draw_gate_hover_spec.
  destruct (last_hit out_hit _) as [o|] eqn:Ho; [by apply last_hit_Some|].
  pose proof (last_hit_None _ _ Ho) as Hno.
  destruct (last_hit in_hit _) as [i|] eqn:Hi.
  - destruct (last_hit_Some _ _ _ Hi) as (? & ? & ?). done.
  - pose proof (last_hit_None _ _ Hi) as Hni. by destruct box_hit.
Qed.

(** X3: when no two wires drive the same input slot, the order of the
    connection table does not change the gates a tick produces. *)
Theorem X3_tick_wire_order ord s cs' :
  cs' ≡ₚ connections s -> NoDup (dest <$> connections s) ->
  option_map gates (simulate ord s) =
  option_map gates (simulate ord {| counter := counter s; gates := gates s;
                                    connections := cs' |}).
Proof.
  intros Hp Hnd. unfold simulate. simpl.
  rewrite (propagate_perm (connections s) cs' (gates s)) by done.
  destruct (propagate cs' (gates s)); [|done].
  by destruct (evaluate ord _).
Qed.

Lemma X3_witness :
  let s := add_connection (add_connection main_sim 0 0 1 0) 2 0 1 1 in
  let cs' := [(2, 0, 1, 1); (0, 0, 1, 0)] in
  (cs' ≡ₚ connections s /\ NoDup (dest <$> connections s)) /\
  option_map gates (simulate (some_order s) s) =
  option_map gates (simulate (some_order s)
                      {| counter := counter s; gates := gates s; connections := cs' |}).
Proof.
  intros s cs'. split; [split|].
  - simpl. apply Permutation_swap.
  - vm_compute. repeat constructor; set_solver.
  - apply X3_tick_wire_order; [simpl; apply Permutation_swap|].
    vm_compute. repeat constructor; set_solver.
Defined.

(** X4: when several wires drive the same input slot, the last of them in
    the connection table decides its value after the tick, and the value is
    the source output from before the tick. *)
Theorem X4_fan_in_last_wire ord s s' pre post from output to input :
  connections s = pre ++ [(from, output, to, input)] ++ post ->
  Forall (fun c => dest c <> (to, input)) post ->
  simulate ord s = Some s' ->
  exists gf v, gates s !! from = Some gf /\ outputs gf !! output = Some v /\
               input_of (gates s') to input = Some v.
Proof.
  intros Hc Hpost Hs. unfold simulate in Hs. rewrite Hc in Hs.
  destruct (propagate _ _) as [gs1|] eqn:Hp; [|done].
  destruct (evaluate ord gs1) as [gs2|] eqn:He; [|done].
  injection Hs as <-. simpl.
  destruct (propagate_last_write _ _ _ _ _ _ _ _ Hp Hpost) as (gf & v & ? & ? & Hin).
  exists gf, v. split; [done|]. split; [done|].
  by rewrite (evaluate_input_of _ _ _ _ _ He).
Qed.

Lemma X4_witness :
  (connections fan_in_sim = [(0, 0, 2, 0)] ++ [(1, 0, 2, 0)] ++ [] /\
   Forall (fun c => dest c <> (2, 0)) ([] : list Connection) /\
   simulate (some_order fan_in_sim) fan_in_sim = Some fan_in_next) /\
  exists gf v, gates fan_in_sim !! 1 = Some gf /\ outputs gf !! 0 = Some v /\
               input_of (gates fan_in_next) 2 0 = Some v.
Proof.
  split; [split; [reflexivity | split; [constructor | vm_compute; reflexivity]]|].
  apply (X4_fan_in_last_wire (some_order fan_in_sim) fan_in_sim fan_in_next
           [(0, 0, 2, 0)] [] 1 0 2 0).
  - reflexivity.
  - constructor.
  - vm_compute. reflexivity.
Defined.

(** X5: after a tick that completes, every gate's outputs are exactly its
    kind's rule applied to its inputs, and its input buffer has its kind's
    arity. *)
Theorem X5_tick_settles ord s s' :
  iteration_order ord (gates s) -> simulate ord s = Some s' ->
  forall id g, gates s' !! id = Some g ->
    length (inputs g) = input_arity (update_kind g) /\
    outputs g = [gate_update_array (update_kind g) (inputs g)].
Proof.
  intros Ho Hs id g Hg. exact (simulate_settled _ _ _ Hs Ho id g Hg).
Qed.

Lemma X5_witness :
  (iteration_order (some_order not_loop) (gates not_loop) /\
   simulate (some_order not_loop) not_loop = Some not_loop_next) /\
  forall g, gates not_loop_next !! 0 = Some g ->
    length (inputs g) = input_arity (update_kind g) /\
    outputs g = [gate_update_array (update_kind g) (inputs g)].
Proof.
  split; [split; [unfold iteration_order; vm_compute; reflexivity
                 | vm_compute; reflexivity]|].
  intros g. apply (X5_tick_settles (some_order not_loop) not_loop not_loop_next).
  - unfold iteration_order; vm_compute; reflexivity.
  - vm_compute; reflexivity.
Defined.

(** X6: with an empty connection table, one tick reaches a fixed point:
    every further tick returns the same simulation. *)
Theorem X6_no_wires_fixpoint ord s s' :
  connections s = [] -> iteration_order ord (gates s) -> simulate ord s = Some s' ->
  forall ord', iteration_order ord' (gates s') -> simulate ord' s' = Some s'.
Proof.
  intros Hc Ho Hs ord' Ho'.
  destruct (simulate_frame _ _ _ Hs) as (_ & Hc' & _).
  unfold simulate. rewrite Hc', Hc. simpl.
  rewrite evaluate_settled_id.
  - destruct s'. simpl in *. by rewrite Hc', Hc.
  - intros k Hk. apply (iteration_order_keys _ _ _ Ho') in Hk.
    destruct Hk as [g Hg]. exists g. split; [done|].
    exact (simulate_settled _ _ _ Hs Ho k g Hg).
Qed.

Lemma X6_witness :
  (connections main_sim = [] /\ iteration_order (some_order main_sim) (gates main_sim) /\
   simulate (some_order main_sim) main_sim = Some main_next /\
   iteration_order (some_order main_next) (gates main_next)) /\
  simulate (some_order main_next) main_next = Some main_next.
Proof.
  split; [split; [reflexivity | split; [unfold iteration_order; vm_compute; reflexivity
         | split; [vm_compute; reflexivity | unfold iteration_order; vm_compute; reflexivity]]]|].
  apply (X6_no_wires_fixpoint (some_order main_sim) main_sim main_next).
  - reflexivity.
  - unfold iteration_order; vm_compute; reflexivity.
  - vm_compute; reflexivity.
  - unfold iteration_order; vm_compute; reflexivity.
Defined.

(** X7: in every state the public operations reach, an input slot that no
    wire of the connection table drives never holds [true]. *)
Theorem X7_undriven_inputs_false s id slot :
  reachable s ->
  Forall (fun c => dest c <> (id, slot)) (connections s) ->
  input_of (gates s) id slot <> Some true.
Proof.
  intros Hr. revert id slot.
  assert (forall s0, rtc step s0 s -> undriven_false s0 -> undriven_false s) as Hgen.
  { clear Hr. intros s0 H. induction H as [|x y z Hxy _ IH]; [done|].
    intros Hx. apply IH. by eapply undriven_false_step. }
  apply (Hgen new_sim Hr). intros id slot _. unfold input_of. simpl.
  by rewrite lookup_empty.
Qed.

Lemma main_sim_reachable : reachable main_sim.
Proof.
  unfold reachable, main_sim.
  eapply rtc_r; [|apply step_add_gate]. eapply rtc_r; [|apply step_add_gate].
  eapply rtc_r; [|apply step_add_gate]. eapply rtc_r; [|apply step_add_gate].
  eapply rtc_r; [|apply step_add_gate]. apply rtc_refl.
Qed.

Lemma X7_witness :
  (reachable (add_connection main_sim 0 0 1 0) /\
   Forall (fun c => dest c <> (1, 1)) (connections (add_connection main_sim 0 0 1 0))) /\
  input_of (gates (add_connection main_sim 0 0 1 0)) 1 1 <> Some true.
Proof.
  assert (reachable (add_connection main_sim 0 0 1 0)) as Hr
    by (eapply rtc_r; [exact main_sim_reachable | apply step_add_connection]).
  split; [split; [exact Hr | repeat constructor; unfold dest; simpl; congruence]|].
  apply X7_undriven_inputs_false; [exact Hr|].
  repeat constructor; unfold dest; simpl; congruence.
Defined.

(** X8: no operation removes anything: from a reachable state, every later
    state still has each gate under the same id, with the same kind, name
    and buffer lengths, and its connection table extends the earlier one. *)
Theorem X8_nothing_removed s s' :
  reachable s -> rtc step s s' ->
  (forall id g, gates s !! id = Some g ->
     exists g', gates s' !! id = Some g' /\
       update_kind g' = update_kind g /\ name g' = name g /\
       length (inputs g') = length (inputs g) /\
       length (outputs g') = length (outputs g)) /\
  exists l, connections s' = connections s ++ l.
Proof.
  intros Hr H. exact (steps_kept s s' (reachable_invariant s Hr) H).
Qed.

Lemma X8_witness :
  (reachable main_sim /\ rtc step main_sim (add_gate (add_connection main_sim 0 0 1 0) Not)) /\
  ((forall id g, gates main_sim !! id = Some g ->
     exists g', gates (add_gate (add_connection main_sim 0 0 1 0) Not) !! id = Some g' /\
       update_kind g' = update_kind g /\ name g' = name g /\
       length (inputs g') = length (inputs g) /\
       length (outputs g') = length (outputs g)) /\
   exists l, connections (add_gate (add_connection main_sim 0 0 1 0) Not) =
             connections main_sim ++ l).
Proof.
  assert (rtc step main_sim (add_gate (add_connection main_sim 0 0 1 0) Not)) as Hs.
  { eapply rtc_l; [apply step_add_connection|]. apply rtc_once, step_add_gate. }
  split; [split; [exact main_sim_reachable | exact Hs]|].
  apply X8_nothing_removed; [exact main_sim_reachable | exact Hs].
Defined.

(** X9: the [main] loop never panics in the simulation: every wire it adds
    joins an existing output slot to an existing input slot, so
    [sim.simulate()] always completes, and [get_gate_state] / [get_gate_name]
    always find the gates of [board_gates]. *)
Theorem X9_main_loop_no_panic u :
  ui_reachable u ->
  wires_valid (sim u) /\
  (forall ord, iteration_order ord (gates (sim u)) ->
     exists s', simulate ord (sim u) = Some s') /\
  (forall id in_hit out_hit box_hit pressed, id ∈ board_ids ->
     exists u', ui_hover in_hit out_hit box_hit pressed id u = Some u').
Proof.
  intros Hr. destruct (ui_reachable_invariant u Hr) as (Hwf & _ & Hv & Hboard & _).
  split; [done|]. split.
  - intros ord Ho. by apply simulate_total.
  - intros id in_hit out_hit box_hit pressed Hid. apply ui_hover_total. by apply Hboard.
Qed.

Lemma ui_wired_sel_reachable : ui_reachable ui_wired_sel.
Proof.
  unfold ui_reachable.
  eapply rtc_l.
  { apply (ui_step_hover ui_init 2 slot0 (fun _ => false) false true ui_sel_in);
      [set_solver | vm_compute; reflexivity]. }
  eapply rtc_l.
  { apply (ui_step_hover ui_sel_in 0 (fun _ => false) slot0 false true ui_sel_both);
      [set_solver | vm_compute; reflexivity]. }
  eapply rtc_l.
  { change ui_wired with (ui_connect ui_sel_both). apply ui_step_connect. }
  eapply rtc_l; [|apply rtc_refl].
  apply (ui_step_hover ui_wired 1 (fun _ => false) slot0 false true ui_wired_sel);
    [set_solver | vm_compute; reflexivity].
Qed.

Lemma X9_witness :
  ui_reachable ui_wired_sel /\
  (connections (sim ui_wired_sel) = [(0, 0, 2, 0)] /\
   wires_valid (sim ui_wired_sel) /\
   (forall ord, iteration_order ord (gates (sim ui_wired_sel)) ->
      exists s', simulate ord (sim ui_wired_sel) = Some s') /\
   (forall id in_hit out_hit box_hit pressed, id ∈ board_ids ->
      exists u', ui_hover in_hit out_hit box_hit pressed id ui_wired_sel = Some u')).
Proof.
  split; [exact ui_wired_sel_reachable|]. split; [reflexivity|].
  apply X9_main_loop_no_panic. exact ui_wired_sel_reachable.
Defined.
